(** * Students performance dashboard: the transform-and-aggregate pipeline

    A shallow embedding of [build_students_dashboard.py]: the table as it is
    after the column rename, the data-quality counts, the fill of missing
    values, the two derived columns, the sorted top-20 views, the group means,
    the band counts and the rows written to the two sheets of the workbook.

    Conventions of the model.
    - A numeric cell is a float in the script, or an integer of an integer
      column.  A finite number is modelled by the rational it denotes ([Q]),
      the missing value NaN by [None].  The arithmetic is the arithmetic of
      doubles: every operation returns the double nearest to the exact
      result ([float64]), and sums run in the order in which numpy and
      pandas add.  Infinities and signed zeros are outside the model.
    - A categorical cell is a string, or [None] when missing.
    - pandas and numpy calls are modelled by what they compute on such
      values: [isna], [fillna], [mean], [mode], [duplicated], [cut],
      [value_counts], [sort_index], [sort_values], [head], [groupby],
      [plot], [to_excel], [concat].
    - numpy chooses the code that sorts by the CPU of the host, and the
      codes differ in where they leave equal keys.  The script is defined
      for any such code: [build_with] computes the tables and the sheets,
      and [run_with] is the whole run, with the charts drawn between the
      aggregations and the export.  [build] is [build_with] with the code
      numpy takes when no vectorised sort is dispatched.
    - Of the charts, the model keeps that drawing one raises on a table
      without rows ([plot]), and where the captions and images go on the
      sheet ([embed_plots]).
    - [workbook] gives the two sheets on either branch of [if OPENPYXL_OK];
      a cell is the value handed to openpyxl, not the bytes of the file. *)

From Stdlib Require Import QArith Qround Qabs Qpower ZArith Lia Lqa Bool.
From stdpp Require Import base list strings sorting.

Local Open Scope Q_scope.

(** ** Errors *)

(** The exceptions of a run: [df[c].mode().iloc[0]] on a column without any
    value indexes an empty Series, and [plot] finds nothing to draw in a
    table without rows. *)
Inductive error := IndexError | TypeError.

Inductive result (A : Type) : Type :=
| Ok (a : A)
| Err (e : error).
Arguments Ok {A} a.
Arguments Err {A} e.

Definition bind {A B} (m : result A) (k : A -> result B) : result B :=
  match m with
  | Ok a => k a
  | Err e => Err e
  end.

Notation "x <~ m ;; k" := (bind m (fun x => k))
  (at level 100, m at next level, right associativity).

(** ** The table *)

Inductive CatCol := Gender | Race_Ethnicity | Parental_Education | Lunch | Test_Prep.
Inductive NumCol := Math | Reading | Writing.

(** One record of the CSV file, columns named as [col_map] renames them. *)
Record Row := mkRow {
  r_gender : option string;
  r_race : option string;
  r_parental : option string;
  r_lunch : option string;
  r_prep : option string;
  r_math : option Q;
  r_reading : option Q;
  r_writing : option Q
}.

Definition cat_get (c : CatCol) (r : Row) : option string :=
  match c with
  | Gender => r_gender r
  | Race_Ethnicity => r_race r
  | Parental_Education => r_parental r
  | Lunch => r_lunch r
  | Test_Prep => r_prep r
  end.

Definition num_get (c : NumCol) (r : Row) : option Q :=
  match c with
  | Math => r_math r
  | Reading => r_reading r
  | Writing => r_writing r
  end.

Definition cat_set (c : CatCol) (v : option string) (r : Row) : Row :=
  match c with
  | Gender => mkRow v (r_race r) (r_parental r) (r_lunch r) (r_prep r) (r_math r) (r_reading r) (r_writing r)
  | Race_Ethnicity => mkRow (r_gender r) v (r_parental r) (r_lunch r) (r_prep r) (r_math r) (r_reading r) (r_writing r)
  | Parental_Education => mkRow (r_gender r) (r_race r) v (r_lunch r) (r_prep r) (r_math r) (r_reading r) (r_writing r)
  | Lunch => mkRow (r_gender r) (r_race r) (r_parental r) v (r_prep r) (r_math r) (r_reading r) (r_writing r)
  | Test_Prep => mkRow (r_gender r) (r_race r) (r_parental r) (r_lunch r) v (r_math r) (r_reading r) (r_writing r)
  end.

Definition num_set (c : NumCol) (v : option Q) (r : Row) : Row :=
  match c with
  | Math => mkRow (r_gender r) (r_race r) (r_parental r) (r_lunch r) (r_prep r) v (r_reading r) (r_writing r)
  | Reading => mkRow (r_gender r) (r_race r) (r_parental r) (r_lunch r) (r_prep r) (r_math r) v (r_writing r)
  | Writing => mkRow (r_gender r) (r_race r) (r_parental r) (r_lunch r) (r_prep r) (r_math r) (r_reading r) v
  end.

(** [num_cols] and [cat_cols] of the script, the latter in file order. *)
Definition num_cols : list NumCol := [Math; Reading; Writing].
Definition cat_cols : list CatCol :=
  [Gender; Race_Ethnicity; Parental_Education; Lunch; Test_Prep].

Definition cat_name (c : CatCol) : string :=
  match c with
  | Gender => "Gender"
  | Race_Ethnicity => "Race_Ethnicity"
  | Parental_Education => "Parental_Education"
  | Lunch => "Lunch"
  | Test_Prep => "Test_Prep"
  end.

Definition num_name (c : NumCol) : string :=
  match c with
  | Math => "Math"
  | Reading => "Reading"
  | Writing => "Writing"
  end.

(** ** Doubles

    A finite double is the rational it denotes.  [float64 x] is the double
    nearest to [x], a tie going to the even significand: 53 bits, the least
    exponent -1022 with its subnormal numbers below, and no bound above (a
    result past the largest double is an infinity in the script and outside
    the model).  An arithmetic operation of the machine is the exact
    operation followed by [float64]. *)

(** [np.rint]: to the nearest integer, halves to the even one. *)
Definition rint (q : Q) : Z :=
  let f := Qfloor q in
  match Qcompare (q - inject_Z f) (1 # 2) with
  | Lt => f
  | Gt => (f + 1)%Z
  | Eq => if Z.even f then f else (f + 1)%Z
  end.

Definition pow2 (k : Z) : Q := 2 ^ k.

(** The exponent of a number that is not zero: [2 ^ ilog2 x <= |x|] and
    [|x| < 2 ^ (ilog2 x + 1)]. *)
Definition ilog2 (x : Q) : Z :=
  let k := (Z.log2 (Z.abs (Qnum x)) - Z.log2 (Z.pos (Qden x)))%Z in
  if Qle_bool (pow2 k) (Qabs x) then k else (k - 1)%Z.

Definition float64 (x : Q) : Q :=
  if Qeq_bool x 0 then 0
  else
    let e := Z.max (ilog2 x) (-1022) in
    let q := pow2 (e - 52) in
    Qred (inject_Z (rint (x / q)) * q).

Definition fadd (x y : Q) : Q := float64 (x + y).
Definition fsub (x y : Q) : Q := float64 (x - y).
Definition fmul (x y : Q) : Q := float64 (x * y).
Definition fdiv (x y : Q) : Q := float64 (x / y).

(** [np.add.reduce] on doubles, numpy's [DOUBLE_pairwise_sum]: fewer than
    eight numbers are added one after the other; up to [PW_BLOCKSIZE]
    numbers are added into eight running sums [r[0..7]], which are then
    added in pairs, and the numbers left over are added to the result; a
    longer array is cut in two at a multiple of eight near its middle. *)
Fixpoint sum_from (res : Q) (a : list Q) : Q :=
  match a with
  | [] => res
  | x :: a' => sum_from (fadd res x) a'
  end.

Definition PW_BLOCKSIZE : nat := 128.

(** [r[j] += a[i + j]] for [blocks] blocks of eight numbers of [a]. *)
Fixpoint unrolled (blocks : nat) (r a : list Q) : list Q :=
  match blocks with
  | O => r
  | S blocks' => unrolled blocks' (zip_with fadd r (take 8 a)) (drop 8 a)
  end.

Definition block_sum (a : list Q) : Q :=
  let n := length a in
  let r := unrolled (n / 8 - 1) (take 8 a) (drop 8 a) in
  let res :=
    match r with
    | [r0; r1; r2; r3; r4; r5; r6; r7] =>
        fadd (fadd (fadd r0 r1) (fadd r2 r3)) (fadd (fadd r4 r5) (fadd r6 r7))
    | _ => 0
    end in
  sum_from res (drop (n - n mod 8) a).

Fixpoint pairwise_sum_ (fuel : nat) (a : list Q) : Q :=
  let n := length a in
  if (n <? 8)%nat then sum_from 0 a
  else if (n <=? PW_BLOCKSIZE)%nat then block_sum a
  else
    match fuel with
    | O => 0
    | S fuel' =>
        let n2 := (n / 2 - (n / 2) mod 8)%nat in
        fadd (pairwise_sum_ fuel' (take n2 a)) (pairwise_sum_ fuel' (drop n2 a))
    end.

Definition pairwise_sum (a : list Q) : Q := pairwise_sum_ (length a) a.

(** ** Performance bands: [pd.cut] *)

Inductive Band := Low | Fair | Good | Excellent.

(** A bin edge: a float that may be infinite. *)
Inductive edge := NegInf | Fin (q : Q) | PosInf.

Definition bins : list edge := [NegInf; Fin 50; Fin 70; Fin 85; PosInf].
Definition labels : list Band := [Low; Fair; Good; Excellent].

Definition Qlt_bool (x y : Q) : bool := negb (Qle_bool y x).

(** [b < x] for an edge [b] and a finite value [x]. *)
Definition edge_ltb (b : edge) (x : Q) : bool :=
  match b with
  | NegInf => true
  | Fin q => Qlt_bool q x
  | PosInf => false
  end.

(** [bins.searchsorted(x, side='left')]: the number of edges below [x], which
    on sorted edges is the first position [i] with [x <= bins[i]]. *)
Fixpoint searchsorted_left (bs : list edge) (x : Q) : nat :=
  match bs with
  | [] => 0
  | b :: bs' => if edge_ltb b x then S (searchsorted_left bs' x) else 0
  end.

(** [pd.cut(x, bins, labels)] on one value, with the defaults [right=True] and
    [include_lowest=False]: position 0 and position [len(bins)] are masked, as
    is NaN, and the others pick [labels[ids - 1]]. *)
Definition cut (x : option Q) : option Band :=
  match x with
  | None => None
  | Some q =>
      let ids := searchsorted_left bins q in
      if (ids =? length bins)%nat || (ids =? 0)%nat then None
      else labels !! (ids - 1)%nat
  end.

(** The four intervals as the specification words them. *)
Definition in_band (b : Band) (q : Q) : Prop :=
  match b with
  | Low => q <= 50
  | Fair => 50 < q /\ q <= 70
  | Good => 70 < q /\ q <= 85
  | Excellent => 85 < q
  end.

(** ** numpy's default sort: [kind='quicksort']

    [sort_values], [sort_index] and [np.sort] are called without [kind],
    that is with numpy's [kind='quicksort'].  This section is numpy's
    introsort ([npysort/quicksort.cpp]), the portable code that runs when no
    vectorised sort is dispatched for the CPU of the host: median-of-three
    quicksort on segments of more than 17 elements, insertion sort below, and
    heapsort on a segment taken from the stack once the depth limit
    [2 * floor(log2 n)] is used up.  [less] is the comparison [Tag::less] on
    the keys; for an argsort the elements carry their keys.  The segments on
    the explicit stack of the C code are disjoint, so each one is sorted
    here by a recursive call on the slice.  pandas documents this kind as
    not stable. *)

Section npysort.
Context {T : Type} (less : T -> T -> bool).

Definition SMALL_QUICKSORT : nat := 16.

Definition less_at (a : list T) (i j : nat) : bool :=
  match a !! i, a !! j with
  | Some x, Some y => less x y
  | _, _ => false
  end.

Definition swap (a : list T) (i j : nat) : list T :=
  match a !! i, a !! j with
  | Some x, Some y => <[j:=x]> (<[i:=y]> a)
  | _, _ => a
  end.

(** [if (less(a[i], a[j])) swap(a[i], a[j])] *)
Definition swap_if_less (a : list T) (i j : nat) : list T :=
  if less_at a i j then swap a i j else a.

(** The scan [do ++pi while less(a[pi], vp)], entered with [i] the
    incremented pointer: the first position from [i] on whose element is
    not below [vp]. *)
Fixpoint scan_up_from (l : list T) (vp : T) (i : nat) : nat :=
  match l with
  | x :: l' => if less x vp then scan_up_from l' vp (S i) else i
  | [] => i
  end.

Definition scan_up (a : list T) (vp : T) (i : nat) : nat :=
  scan_up_from (drop i a) vp i.

(** The scan [do --pj while less(vp, a[pj])], entered with [j] the
    decremented pointer. *)
Fixpoint scan_down (a : list T) (vp : T) (j : nat) : nat :=
  match a !! j with
  | Some x =>
      if less vp x
      then match j with
           | S j' => scan_down a vp j'
           | O => O
           end
      else j
  | None => j
  end.

(** The [for (;;)] loop of the partition. *)
Fixpoint partition_loop (fuel : nat) (a : list T) (vp : T) (pi pj : nat)
  : list T * nat :=
  match fuel with
  | O => (a, pi)
  | S fuel' =>
      let pi' := scan_up a vp (S pi) in
      let pj' := scan_down a vp (pj - 1) in
      if (pj' <=? pi')%nat then (a, pi')
      else partition_loop fuel' (swap a pi' pj') vp pi' pj'
  end.

(** One quicksort partition of the segment [a] ([pl = 0],
    [pr = length a - 1]): the array after it and the pivot's place. *)
Definition partition (a : list T) : list T * nat :=
  let pr := (length a - 1)%nat in
  let pm := Nat.div2 pr in
  let a := swap_if_less a pm 0 in
  let a := swap_if_less a pr pm in
  let a := swap_if_less a pm 0 in
  match a !! pm with
  | None => (a, 0%nat)
  | Some vp =>
      let pj := (pr - 1)%nat in
      let a := swap a pm pj in
      let '(a, pi) := partition_loop (length a) a vp 0 pj in
      (swap a pi (pr - 1)%nat, pi)
  end.

(** The insertion of [x] into the sorted prefix, [rp] being that prefix
    from right to left: elements above [x] move one place to the right. *)
Fixpoint shift_in (x : T) (rp : list T) : list T :=
  match rp with
  | y :: rp' => if less x y then y :: shift_in x rp' else x :: rp
  | [] => [x]
  end.

Definition insertion_sort (a : list T) : list T :=
  reverse (fold_left (fun rp x => shift_in x rp) a []).

(** Heapsort, on the 1-based array [a = start - 1] of the C code. *)
Definition at1 (a : list T) (k : nat) : option T := a !! (k - 1)%nat.
Definition set1 (a : list T) (k : nat) (x : T) : list T := <[(k - 1)%nat:=x]> a.

Definition less1 (a : list T) (i j : nat) : bool :=
  match at1 a i, at1 a j with
  | Some x, Some y => less x y
  | _, _ => false
  end.

(** [for (i = l, j = l << 1; j <= n;) { ... } a[i] = tmp;] *)
Fixpoint sift (fuel : nat) (a : list T) (tmp : T) (i n : nat) : list T :=
  match fuel with
  | O => set1 a i tmp
  | S fuel' =>
      let j := (i + i)%nat in
      if (n <? j)%nat then set1 a i tmp
      else
        let j := if (j <? n)%nat && less1 a j (j + 1) then (j + 1)%nat else j in
        match at1 a j with
        | Some aj =>
            if less tmp aj then sift fuel' (set1 a i aj) tmp j n
            else set1 a i tmp
        | None => set1 a i tmp
        end
  end.

(** [for (l = n >> 1; l > 0; --l) { tmp = a[l]; sift }] *)
Fixpoint heapify (l : nat) (a : list T) (n : nat) : list T :=
  match l with
  | O => a
  | S l' =>
      match at1 a l with
      | Some tmp => heapify l' (sift n a tmp l n) n
      | None => a
      end
  end.

(** [for (; n > 1;) { tmp = a[n]; a[n] = a[1]; n -= 1; sift }] *)
Fixpoint heap_extract (n : nat) (a : list T) : list T :=
  match n with
  | O => a
  | S n' =>
      match n' with
      | O => a
      | S _ =>
          match at1 a n, at1 a 1 with
          | Some tmp, Some top =>
              heap_extract n' (sift n' (set1 a n top) tmp 1 n')
          | _, _ => a
          end
      end
  end.

Definition heapsort_ (a : list T) : list T :=
  let n := length a in
  heap_extract n (heapify (Nat.div2 n) a n).

(** The main loop.  [popped] tells whether the segment comes from the
    stack (or is the whole array), where [cdepth < 0] is tested; the
    smaller part of a partition stays in the inner loop and is not tested. *)
Fixpoint introsort (fuel : nat) (popped : bool) (cdepth : Z) (a : list T)
  : list T :=
  match fuel with
  | O => a
  | S fuel' =>
      if popped && (cdepth <? 0)%Z then heapsort_ a
      else if (SMALL_QUICKSORT <? length a - 1)%nat then
        let '(a', pi) := partition a in
        let left := take pi a' in
        let right := drop (S pi) a' in
        let cdepth' := (cdepth - 1)%Z in
        match a' !! pi with
        | None => a'
        | Some p =>
            if (length left <? length right)%nat
            then introsort fuel' false cdepth' left ++ p
                   :: introsort fuel' true cdepth' right
            else introsort fuel' true cdepth' left ++ p
                   :: introsort fuel' false cdepth' right
        end
      else insertion_sort a
  end.

(** [npy_get_msb(num) * 2] *)
Definition depth_limit (num : nat) : Z := (Z.log2 (Z.of_nat num) * 2)%Z.

Definition quicksort_ (a : list T) : list T :=
  introsort (S (length a)) true (depth_limit (length a)) a.

(** [x] is not above [y] in the order of [less]. *)
Definition le_of (x y : T) : Prop := less y x = false.

(** The child of node [i] that the sift loop compares [tmp] with, and the
    heap condition at node [k] of the first [n] cells. *)
Definition child (a : list T) (i n : nat) : nat :=
  if ((i + i <? n)%nat && less1 a (i + i) (i + i + 1))%bool
  then (i + i + 1)%nat else (i + i)%nat.

Definition heap_at (a : list T) (n k : nat) : Prop :=
  forall c x y, (c = 2 * k \/ c = 2 * k + 1)%nat -> (c <= n)%nat ->
    at1 a k = Some x -> at1 a c = Some y -> le_of y x.
End npysort.

(** ** The code that sorts

    For [kind='quicksort'] numpy runs the code its dispatcher picks for the
    CPU of the host: a vectorised sort where one is built in and the CPU has
    the instructions, and [quicksort_] above otherwise.  A [kernel] stands
    for the code that runs; whichever it is, it [sorts]: it returns the
    elements it is given, in the order of their keys.  Where elements of
    equal keys end up is not part of that, and differs from one code to the
    other. *)

Definition kernel : Type := forall T : Type, (T -> T -> bool) -> list T -> list T.

Definition sorts (kind : kernel) : Prop :=
  forall (T : Type) (less : T -> T -> bool),
    (forall x y, less x y = true -> less y x = false) ->
    (forall x y z, le_of less x y -> le_of less y z -> le_of less x z) ->
    forall a : list T,
      kind T less a ≡ₚ a /\ StronglySorted (le_of less) (kind T less a).

(** ** Sorting a Series or a DataFrame: [nargsort]

    [pandas.core.sorting.nargsort] with [na_position='last']: the present keys
    are sorted by [argsort(kind='quicksort')], for a descending sort on the
    reversed array and with the result reversed again, and the positions of
    the missing keys follow.  The argsort moves positions by the keys they
    index, so the pairs of a position and its key are sorted here. *)

Definition nargsort_with (kind : kernel) {K : Type} (less : K -> K -> bool)
    (items : list (option K)) (ascending : bool) : list nat :=
  let tagged := zip (seq 0 (length items)) items in
  let non_nan :=
    omap (fun p : nat * option K => match p.2 with Some k => Some (p.1, k) | None => None end) tagged in
  let nan_idx :=
    omap (fun p : nat * option K => match p.2 with None => Some p.1 | Some _ => None end) tagged in
  let non_nan := if ascending then non_nan else reverse non_nan in
  let indexer := map fst (kind (nat * K)%type (fun x y : nat * K => less x.2 y.2) non_nan) in
  let indexer := if ascending then indexer else reverse indexer in
  indexer ++ nan_idx.

Definition nargsort {K : Type} (less : K -> K -> bool)
    (items : list (option K)) (ascending : bool) : list nat :=
  nargsort_with (@quicksort_) less items ascending.

(** [take(indexer)]: the rows at the given positions. *)
Definition take_rows {R : Type} (df : list R) (indexer : list nat) : list R :=
  omap (fun i => df !! i) indexer.

(** [sort_values(by, ascending=...)], [by] giving the key of a row. *)
Definition sort_values_with (kind : kernel) {R K : Type} (less : K -> K -> bool)
    (by_ : R -> option K) (ascending : bool) (df : list R) : list R :=
  take_rows df (nargsort_with kind less (map by_ df) ascending).

Definition sort_values {R K : Type} (less : K -> K -> bool)
    (by_ : R -> option K) (ascending : bool) (df : list R) : list R :=
  sort_values_with (@quicksort_) less by_ ascending df.

(** [head(n)] *)
Definition head {R : Type} (n : nat) (df : list R) : list R := take n df.

(** ** Data quality checks *)

Definition isna {A : Type} (x : option A) : bool :=
  match x with
  | None => true
  | Some _ => false
  end.

(** [s.isna().sum()] *)
Definition isna_sum {A : Type} (s : list (option A)) : nat :=
  length (List.filter isna s).

(** [s.isna().any()] *)
Definition isna_any {A : Type} (s : list (option A)) : bool := existsb isna s.

(** [df.isna().sum()]: one count per column, in column order. *)
Definition isna_sums (df : list Row) : list (string * nat) :=
  map (fun c => (cat_name c, isna_sum (map (cat_get c) df))) cat_cols
  ++ map (fun c => (num_name c, isna_sum (map (num_get c) df))) num_cols.

(** [df.isna().sum().sort_values(ascending=False)] *)
Definition missing_counts_of_with (kind : kernel) (df : list Row)
    : list (string * nat) :=
  sort_values_with kind Nat.ltb (fun p : string * nat => Some p.2) false
    (isna_sums df).

Definition missing_counts_of (df : list Row) : list (string * nat) :=
  missing_counts_of_with (@quicksort_) df.

Definition opt_eqb {A : Type} (eqb : A -> A -> bool) (x y : option A) : bool :=
  match x, y with
  | Some a, Some b => eqb a b
  | None, None => true
  | _, _ => false
  end.

(** Two rows hold the same values; missing values match each other, as they do
    for [duplicated]. *)
Definition row_eqb (r1 r2 : Row) : bool :=
  forallb (fun c => opt_eqb String.eqb (cat_get c r1) (cat_get c r2)) cat_cols
  && forallb (fun c => opt_eqb Qeq_bool (num_get c r1) (num_get c r2)) num_cols.

(** [df.duplicated()]: a row is marked when an earlier row equals it. *)
Fixpoint duplicated (seen : list Row) (df : list Row) : list bool :=
  match df with
  | [] => []
  | r :: df' => existsb (row_eqb r) seen :: duplicated (r :: seen) df'
  end.

Definition duplicate_count_of (df : list Row) : nat :=
  length (List.filter id (duplicated [] df)).

(** ** Filling missing values *)

(** [s.fillna(v)]; a NaN [v] fills nothing. *)
Definition fillna {A : Type} (v : option A) (x : option A) : option A :=
  match x with
  | None => v
  | Some _ => x
  end.

Definition present {A : Type} (s : list (option A)) : list A := omap id s.

(** [s.mean()] with [skipna=True], pandas' [nanmean]: the values are taken
    as doubles with 0 in the place of NaN, summed by numpy, and the sum is
    divided by the number of values present; NaN when none is. *)
Definition mean (s : list (option Q)) : option Q :=
  let values := map (fun x => match x with Some v => float64 v | None => 0 end) s in
  match length (present s) with
  | O => None
  | S _ as count => Some (fdiv (pairwise_sum values) (inject_Z (Z.of_nat count)))
  end.

(** [df[c] = df[c].fillna(m)] on one row. *)
Definition fill_row_num (c : NumCol) (m : option Q) (r : Row) : Row :=
  num_set c (fillna m (num_get c r)) r.

Definition fill_row_cat (c : CatCol) (m : option string) (r : Row) : Row :=
  cat_set c (fillna m (cat_get c r)) r.

(** The body of the loop over [num_cols]. *)
Definition fill_num (df : list Row) (c : NumCol) : list Row :=
  let col := map (num_get c) df in
  if isna_any col then map (fill_row_num c (mean col)) df else df.

(** The frequency table behind [mode]: one entry per value, in the order in
    which the values are first met. *)
Fixpoint incr (k : string) (t : list (string * nat)) : list (string * nat) :=
  match t with
  | [] => [(k, 1%nat)]
  | (k', n) :: t' =>
      if String.eqb k k' then (k', S n) :: t' else (k', n) :: incr k t'
  end.

Definition value_count (xs : list string) : list (string * nat) :=
  fold_left (fun t k => incr k t) xs [].

(** [s.mode()]: the values of the highest count among the present ones,
    sorted ([np.sort] of the modes). *)
Definition mode (s : list (option string)) : list string :=
  let t := value_count (present s) in
  let mx := max_list (map snd t) in
  quicksort_ String.ltb
    (map fst (List.filter (fun p : string * nat => (p.2 =? mx)%nat) t)).

(** The body of the loop over [cat_cols]; [.iloc[0]] raises on no mode. *)
Definition fill_cat (df : list Row) (c : CatCol) : result (list Row) :=
  let col := map (cat_get c) df in
  if isna_any col
  then match mode col with
       | [] => Err IndexError
       | m :: _ => Ok (map (fill_row_cat c (Some m)) df)
       end
  else Ok df.

Definition fill_missing (df : list Row) : result (list Row) :=
  let df := fold_left fill_num num_cols df in
  fold_left (fun acc c => df' <~ acc ;; fill_cat df' c) cat_cols (Ok df).

(** A row with every missing cell replaced by the fill value of its column. *)
Definition filled_with (mn : NumCol -> option Q) (mc : CatCol -> option string)
    (r : Row) : Row :=
  mkRow (fillna (mc Gender) (r_gender r))
        (fillna (mc Race_Ethnicity) (r_race r))
        (fillna (mc Parental_Education) (r_parental r))
        (fillna (mc Lunch) (r_lunch r))
        (fillna (mc Test_Prep) (r_prep r))
        (fillna (mn Math) (r_math r))
        (fillna (mn Reading) (r_reading r))
        (fillna (mn Writing) (r_writing r)).

(** The fill values: the mean of a numeric column, the first mode of a
    categorical one. *)
Definition col_mean (df : list Row) (c : NumCol) : option Q :=
  mean (map (num_get c) df).

Definition col_mode (df : list Row) (c : CatCol) : option string :=
  mode (map (cat_get c) df) !! 0%nat.

(** ** Derived fields *)

(** A row of the table with its two derived columns. *)
Record DRow := mkDRow {
  d_row : Row;
  Average : option Q;
  Performance_Band : option Band
}.

(** [.round(2)], numpy's [around]: multiply by 100, [rint], divide by 100,
    each of them an operation on doubles. *)
Definition round2 (q : Q) : Q := fdiv (inject_Z (rint (fmul q 100))) 100.

(** [df[num_cols].mean(axis=1)] on one row. *)
Definition row_mean (r : Row) : option Q :=
  mean (map (fun c => num_get c r) num_cols).

Definition add_average (df : list Row) : list (Row * option Q) :=
  map (fun r => (r, option_map round2 (row_mean r))) df.

Definition add_band (df : list (Row * option Q)) : list DRow :=
  map (fun p : Row * option Q => mkDRow p.1 p.2 (cut p.2)) df.

Definition derive (df : list Row) : list DRow := add_band (add_average df).

(** Both derived columns of one row. *)
Definition derive_row (r : Row) : DRow :=
  mkDRow r (option_map round2 (row_mean r)) (cut (option_map round2 (row_mean r))).

(** ** Aggregations *)

Definition band_code (b : Band) : nat :=
  match b with
  | Low => 0
  | Fair => 1
  | Good => 2
  | Excellent => 3
  end.

Definition band_eqb (b1 b2 : Band) : bool := (band_code b1 =? band_code b2)%nat.

(** [value_counts()] of the categorical column: a count for each category,
    missing bands left out, sorted by descending count. *)
Definition band_value_counts_with (kind : kernel) (df : list DRow)
    : list (Band * nat) :=
  let col := present (map Performance_Band df) in
  sort_values_with kind Nat.ltb (fun p : Band * nat => Some p.2) false
    (map (fun b => (b, length (List.filter (band_eqb b) col))) labels).

(** [.sort_index()]: by the code of the category. *)
Definition sort_index_with (kind : kernel) (s : list (Band * nat))
    : list (Band * nat) :=
  sort_values_with kind Nat.ltb (fun p : Band * nat => Some (band_code p.1))
    true s.

Definition band_counts_of_with (kind : kernel) (df : list DRow)
    : list (Band * nat) :=
  sort_index_with kind (band_value_counts_with kind df).

Definition band_counts_of (df : list DRow) : list (Band * nat) :=
  band_counts_of_with (@quicksort_) df.

(** The mean of one group, pandas' [group_mean]: the values present are
    added row after row by Kahan's compensated summation, [y = val - c],
    [t = sumx + y], [c = (t - sumx) - y], [sumx = t], and the sum is divided
    by their number. *)
Definition kahan_step (acc : Q * Q) (val : Q) : Q * Q :=
  let '(sumx, compensation) := acc in
  let y := fsub val compensation in
  let t := fadd sumx y in
  (t, fsub (fsub t sumx) y).

Definition group_mean (s : list (option Q)) : option Q :=
  match map float64 (present s) with
  | [] => None
  | xs => Some (fdiv (fold_left kahan_step xs (0, 0)).1
                     (inject_Z (Z.of_nat (length xs))))
  end.

(** [df.groupby(c)[num_cols + ['Average']].mean().round(2)]: one line per
    value of the column, in sorted order, with the four rounded means. *)
Definition group_means (c : CatCol) (df : list DRow)
    : list (string * list (option Q)) :=
  let keys := quicksort_ String.ltb (remove_dups (present (map (fun r => cat_get c (d_row r)) df))) in
  map (fun k =>
         let g := List.filter (fun r => opt_eqb String.eqb (cat_get c (d_row r)) (Some k)) df in
         (k, map (fun col => option_map round2 (group_mean col))
               (map (fun nc => map (fun r => num_get nc (d_row r)) g) num_cols
                ++ [map Average g])))
      keys.

(** ** The workbook *)

Inductive cell :=
| CStr (s : string)
| CNum (q : Q)
| CInt (n : Z)
| CNaN.

Definition band_name (b : Band) : string :=
  match b with
  | Low => "Low"
  | Fair => "Fair"
  | Good => "Good"
  | Excellent => "Excellent"
  end.

Definition str_cell (x : option string) : cell :=
  match x with
  | Some s => CStr s
  | None => CNaN
  end.

Definition num_cell (x : option Q) : cell :=
  match x with
  | Some q => CNum q
  | None => CNaN
  end.

Definition band_cell (x : option Band) : cell :=
  match x with
  | Some b => CStr (band_name b)
  | None => CNaN
  end.

(** [list(df.columns)] after the derivation. *)
Definition columns : list cell :=
  map (fun c => CStr (cat_name c)) cat_cols
  ++ map (fun c => CStr (num_name c)) num_cols
  ++ [CStr "Average"; CStr "Performance_Band"].

(** [list(row.values)] *)
Definition row_values (r : DRow) : list cell :=
  map (fun c => str_cell (cat_get c (d_row r))) cat_cols
  ++ map (fun c => num_cell (num_get c (d_row r))) num_cols
  ++ [num_cell (Average r); band_cell (Performance_Band r)].

(** [dataframe_to_rows(df, index=False, header=True)] *)
Definition dataframe_to_rows (df : list DRow) : list (list cell) :=
  columns :: map row_values df.

Definition write_title (title : string) : list (list cell) :=
  [[CStr title]; []].

Definition group_block (title name : string)
    (g : list (string * list (option Q))) : list (list cell) :=
  write_title title
  ++ [CStr name :: map (fun c => CStr (num_name c)) num_cols ++ [CStr "Average"]]
  ++ map (fun p : string * list (option Q) => CStr p.1 :: map num_cell p.2) g
  ++ [[]].

Definition top_block (title : string) (top : list DRow) : list (list cell) :=
  write_title title ++ [columns] ++ map row_values top ++ [[]].

(** The rows from [ws2.append(['Missing Values (per column)'])] to the blank
    row after the loop over [missing_counts.items()]. *)
Definition missing_block (missing_counts : list (string * nat)) : list (list cell) :=
  [[CStr "Missing Values (per column)"]; [CStr "Column"; CStr "Missing"]]
  ++ map (fun p : string * nat => [CStr p.1; CInt (Z.of_nat p.2)]) missing_counts
  ++ [[]].

(** ** The run of the script *)

(** What the script holds when it saves the workbook on the path that builds
    the sheets with openpyxl; [Summary] is the sheet as the [append] calls
    leave it, before the captions of the charts. *)
Record Dashboard := mkDashboard {
  missing_counts : list (string * nat);
  duplicate_count : nat;
  df : list DRow;
  sorted_by_avg_desc : list DRow;
  sorted_by_math_desc : list DRow;
  by_gender : list (string * list (option Q));
  by_race : list (string * list (option Q));
  by_prep : list (string * list (option Q));
  band_counts : list (Band * nat);
  Cleaned_Data : list (list cell);
  Summary : list (list cell)
}.

(** The values and the sheets of the script on a host whose numpy sorts
    with [kind]; the charts are left to [run_with] below. *)
Definition build_with (kind : kernel) (loaded : list Row) : result Dashboard :=
  let missing_counts := missing_counts_of_with kind loaded in
  let duplicate_count := duplicate_count_of loaded in
  filled <~ fill_missing loaded ;;
  let df := derive filled in
  let sorted_by_avg_desc :=
    head 20 (sort_values_with kind Qlt_bool Average false df) in
  let sorted_by_math_desc :=
    head 20 (sort_values_with kind Qlt_bool
               (fun r => num_get Math (d_row r)) false df) in
  let by_gender := group_means Gender df in
  let by_race := group_means Race_Ethnicity df in
  let by_prep := group_means Test_Prep df in
  let band_counts := band_counts_of_with kind df in
  let ws1 := dataframe_to_rows df in
  let ws2 :=
    write_title "Data Quality"
    ++ [[CStr "Duplicate Rows"; CInt (Z.of_nat duplicate_count)]; []]
    ++ missing_block missing_counts
    ++ group_block "Average Scores by Gender" "Gender" by_gender
    ++ group_block "Average Scores by Race/Ethnicity" "Race_Ethnicity" by_race
    ++ group_block "Scores by Test Preparation" "Test_Prep" by_prep
    ++ top_block "Top 20 by Average" sorted_by_avg_desc
    ++ top_block "Top 20 by Math" sorted_by_math_desc in
  Ok (mkDashboard missing_counts duplicate_count df sorted_by_avg_desc
        sorted_by_math_desc by_gender by_race by_prep band_counts ws1 ws2).

(** The same with the sort that numpy takes when none is dispatched. *)
Definition build (loaded : list Row) : result Dashboard :=
  build_with (@quicksort_) loaded.

(** ** The charts *)



(** ** Column names *)

(** The dict [col_map], in the order of its items. *)
Definition col_map : list (string * string) :=
  [("gender", "Gender");
   ("race/ethnicity", "Race_Ethnicity");
   ("parental level of education", "Parental_Education");
   ("lunch", "Lunch");
   ("test preparation course", "Test_Prep");
   ("math score", "Math");
   ("reading score", "Reading");
   ("writing score", "Writing")].

(** [d.get(k)] on the items of a dict. *)
Fixpoint dict_get (d : list (string * string)) (k : string) : option string :=
  match d with
  | [] => None
  | (k', v) :: d' => if String.eqb k k' then Some v else dict_get d' k
  end.

(** [df.rename(columns=mapper)] on the labels of the columns: a label that is
    a key of the mapper is replaced, the others stay. *)
Definition rename (mapper : list (string * string)) (columns : list string)
    : list string :=
  map (fun c => match dict_get mapper c with Some v => v | None => c end) columns.

(** [[c for c in df.columns if c not in num_cols]] *)
Definition cat_cols_of (columns : list string) : list string :=
  List.filter (fun c => negb (existsb (String.eqb c) (map num_name num_cols))) columns.

(** The labels of the table that a [Row] stands for. *)
Definition schema : list string :=
  map cat_name cat_cols ++ map num_name num_cols.

(** ** The charts of the Summary sheet *)

(** [ws.max_row]: the last row that holds a cell, 1 on a sheet without
    cells; [ws.append([])] moves to the next row and creates no cell. *)
Fixpoint max_row_from (i : nat) (ws : list (list cell)) : nat :=
  match ws with
  | [] => 0%nat
  | row :: ws' =>
      Nat.max (match row with [] => 0%nat | _ :: _ => i end) (max_row_from (S i) ws')
  end.

Definition max_row (ws : list (list cell)) : nat :=
  Nat.max 1%nat (max_row_from 1%nat ws).

(** [ws.cell(row=row, column=1, value=value)]: rows are counted from 1, and
    the rows up to [row] come to exist. *)
Definition set_cell (ws : list (list cell)) (row : nat) (value : cell)
    : list (list cell) :=
  alter (fun r => value :: tail r) (row - 1)%nat
        (ws ++ replicate (row - length ws)%nat []).

(** The list [plots]: the captions and the names of the image files. *)
Definition plots : list (string * string) :=
  [("Average by Gender", "avg_by_gender.png");
   ("Average by Race/Ethnicity", "avg_by_race.png");
   ("Scores by Test Prep", "scores_by_prep.png");
   ("Performance Bands", "band_counts.png")].

(** The loop over [plots]. [XLImage path] tells whether the image of the file
    loads; when it does not, the exception leaves the loop and the [except]
    clause passes. An image is kept with the row of its anchor in column A. *)
Fixpoint embed_loop (XLImage : string -> bool) (plots : list (string * string))
    (row_cursor : nat) (ws : list (list cell)) (images : list (string * nat))
    : list (list cell) * list (string * nat) :=
  match plots with
  | [] => (ws, images)
  | (title, path) :: plots' =>
      let ws := set_cell ws row_cursor (CStr title) in
      let row_cursor := (row_cursor + 1)%nat in
      if XLImage path
      then embed_loop XLImage plots' (row_cursor + 20)%nat ws
             (images ++ [(path, row_cursor)])
      else (ws, images)
  end.

(** The [try] block after the last [append]: the sheet and its images. *)
Definition embed_plots (XLImage : string -> bool) (ws : list (list cell))
    : list (list cell) * list (string * nat) :=
  embed_loop XLImage plots (max_row ws + 2)%nat ws [].

(** ** The branch without openpyxl: pandas' [ExcelWriter] *)




















(** ** Notions of the specification *)

(** The order of the keys in a sorted table: ascending or descending on the
    present keys, the missing ones last. *)
Definition key_le {K : Type} (less : K -> K -> bool) (ascending : bool)
    (a b : option K) : Prop :=
  match a, b with
  | Some x, Some y => if ascending then le_of less x y else le_of less y x
  | _, None => True
  | None, Some _ => False
  end.

(** A stable descending sort, as the specification words the top-N views:
    a row goes before the first row whose key is not above its own. *)
Fixpoint stable_insert {R : Type} (by_ : R -> option Q) (x : R) (l : list R)
    : list R :=
  match l with
  | [] => [x]
  | y :: l' =>
      match by_ x, by_ y with
      | Some kx, Some ky =>
          if Qlt_bool kx ky then y :: stable_insert by_ x l' else x :: l
      | Some _, None => x :: l
      | None, Some _ => y :: stable_insert by_ x l'
      | None, None => x :: l
      end
  end.

Definition stable_sort_desc {R : Type} (by_ : R -> option Q) (df : list R)
    : list R :=
  foldr (stable_insert by_) [] df.


(** The most frequent value with ties going to the value met first, as the
    specification words the imputation: the first entry of the frequency
    table that has the highest count. *)
Definition first_mode (s : list (option string)) : option string :=
  let t := value_count (present s) in
  let mx := max_list (map snd t) in
  match List.filter (fun p : string * nat => (p.2 =? mx)%nat) t with
  | [] => None
  | p :: _ => Some p.1
  end.

(** The number of times [v] stands in [xs]. *)
Definition count_str (v : string) (xs : list string) : nat :=
  length (List.filter (String.eqb v) xs).

(** [m] is a most frequent value of [xs], and the least one in string order
    among the most frequent. *)
Definition least_mode (m : string) (xs : list string) : Prop :=
  m ∈ xs /\
  (forall v, v ∈ xs -> (count_str v xs <= count_str m xs)%nat) /\
  (forall v, v ∈ xs -> count_str v xs = count_str m xs -> String.ltb v m = false).


(** Whether a sheet row holds a missing value. *)
Definition is_nan (c : cell) : bool :=
  match c with
  | CNaN => true
  | _ => false
  end.

Definition sheet_complete (ws : list (list cell)) : bool :=
  forallb (fun row => negb (existsb is_nan row)) ws.


(** ** Sample tables *)

Definition student (g : option string) (m r w : option Q) : Row :=
  mkRow g (Some "group B") (Some "some college") (Some "standard") (Some "none")
        m r w.

(** Four students: a missing gender, a missing math score, and the first
    student entered twice. *)
Definition sample : list Row :=
  [student (Some "female") (Some 72) (Some 72) (Some 74);
   student (Some "male") None (Some 90) (Some 88);
   student None (Some 50) (Some 50) (Some 50);
   student (Some "female") (Some 72) (Some 72) (Some 74)].


(** Two genders met once each, "male" first, and one missing. *)
Definition gender_tie : list Row :=
  [student (Some "male") (Some 47) (Some 57) (Some 44);
   student (Some "female") (Some 72) (Some 72) (Some 74);
   student None (Some 90) (Some 95) (Some 93)].


(** Eighteen students with the same math score and the same average, told
    apart by their reading score 0, 1, ..., 17. *)
Definition tie_table : list Row :=
  map (fun i : nat =>
         student (Some "female") (Some 70)
           (Some (inject_Z (Z.of_nat i))) (Some (inject_Z (100 - Z.of_nat i))))
      (seq 0 18).

(** The reading score as an integer, to name a row of [tie_table]. *)
Definition reading_of (r : DRow) : Z :=
  match num_get Reading (d_row r) with
  | Some q => Qfloor q
  | None => (-1)%Z
  end.

Definition cleaned_of (loaded : list Row) : option (list Row) :=
  match fill_missing loaded with
  | Ok filled => Some filled
  | Err _ => None
  end.


Definition dashboard_with (kind : kernel) (loaded : list Row)
    : option Dashboard :=
  match build_with kind loaded with
  | Ok d => Some d
  | Err _ => None
  end.

(** Three students on the edges of the bands: the averages are 85, 85.01
    and 50. *)
Definition band_edges : list Row :=
  [student (Some "female") (Some 85) (Some 85) (Some 85);
   student (Some "male") (Some 85) (Some 85) (Some (8503 # 100));
   student (Some "female") (Some 50) (Some 50) (Some 50)].


(** Six students, one of them without a math score. *)
Definition six_scores : list Row :=
  map (fun m => student (Some "female") m (Some 60) (Some 60))
      [Some 28; Some 5; Some 71; None; Some 17; Some 37].

(** Twenty-two students, to have rows beyond the first twenty. *)
Definition class_of_22 : list Row := tie_table ++ sample.

(** * Theorems *)

Lemma Qlt_bool_iff (x y : Q) : Qlt_bool x y = true <-> x < y.
Proof.
  unfold Qlt_bool. rewrite negb_true_iff.
  split.
  - intros H. apply Qnot_le_lt. intros Hle.
    apply Qle_bool_iff in Hle. congruence.
  - intros H. destruct (Qle_bool y x) eqn:E; [|reflexivity].
    apply Qle_bool_iff in E. exfalso. exact (Qlt_not_le _ _ H E).
Qed.

Lemma Qlt_bool_false_iff (x y : Q) : Qlt_bool x y = false <-> y <= x.
Proof.
  unfold Qlt_bool. rewrite negb_false_iff. apply Qle_bool_iff.
Qed.

Lemma cut_cases (q : Q) :
  cut (Some q) =
    Some (if Qlt_bool 50 q
          then if Qlt_bool 70 q
               then if Qlt_bool 85 q then Excellent else Good
               else Fair
          else Low).
Proof.
  unfold cut, bins, searchsorted_left, edge_ltb.
  destruct (Qlt_bool 50 q) eqn:E50; [|reflexivity].
  destruct (Qlt_bool 70 q) eqn:E70; [|reflexivity].
  destruct (Qlt_bool 85 q) eqn:E85; reflexivity.
Qed.

Lemma cut_in_band (q : Q) (b : Band) : cut (Some q) = Some b <-> in_band b q.
Proof.
  rewrite cut_cases.
  destruct (Qlt_bool 50 q) eqn:E50;
    [apply Qlt_bool_iff in E50 | apply Qlt_bool_false_iff in E50];
  (destruct (Qlt_bool 70 q) eqn:E70;
    [apply Qlt_bool_iff in E70 | apply Qlt_bool_false_iff in E70]);
  (destruct (Qlt_bool 85 q) eqn:E85;
    [apply Qlt_bool_iff in E85 | apply Qlt_bool_false_iff in E85]);
  destruct b; simpl; split; intros H;
    try discriminate; try reflexivity; try tauto;
    try (exfalso; lra).
Qed.

(** ** Correctness of the sort *)

Local Close Scope Q_scope.

Section npysort_correct.
Context {T : Type} (less : T -> T -> bool).

Hypothesis less_asym : forall x y, less x y = true -> less y x = false.
Hypothesis le_of_trans :
  forall x y z, le_of less x y -> le_of less y z -> le_of less x z.

Local Abbreviation le := (le_of less).

Lemma le_refl x : le x x.
Proof.
  unfold le_of. destruct (less x x) eqn:E; [|reflexivity].
  rewrite (less_asym _ _ E) in E. discriminate.
Qed.

Lemma lt_le x y : less x y = true -> le x y.
Proof. apply less_asym. Qed.

Lemma le_total x y : le x y \/ le y x.
Proof.
  unfold le_of. destruct (less y x) eqn:E; [right; auto|left; reflexivity].
Qed.

(** *** Swaps *)

Lemma swap_length (a : list T) i j : length (swap a i j) = length a.
Proof.
  unfold swap. destruct (a !! i), (a !! j); rewrite ?length_insert; reflexivity.
Qed.

Lemma swap_perm (a : list T) i j : swap a i j ≡ₚ a.
Proof.
  unfold swap. destruct (a !! i) eqn:Ei; [|reflexivity].
  destruct (a !! j) eqn:Ej; [|reflexivity].
  by apply Permutation_insert_swap.
Qed.

Lemma swap_lookup_l (a : list T) i j x y :
  a !! i = Some x -> a !! j = Some y -> swap a i j !! i = Some y.
Proof.
  intros Hi Hj. unfold swap. rewrite Hi, Hj.
  destruct (decide (i = j)) as [->|Hne].
  - rewrite list_lookup_insert_eq; [congruence|].
    rewrite length_insert. by eapply lookup_lt_Some.
  - rewrite list_lookup_insert_ne by done.
    rewrite list_lookup_insert_eq; [done|]. by eapply lookup_lt_Some.
Qed.

Lemma swap_lookup_r (a : list T) i j x y :
  a !! i = Some x -> a !! j = Some y -> swap a i j !! j = Some x.
Proof.
  intros Hi Hj. unfold swap. rewrite Hi, Hj.
  rewrite list_lookup_insert_eq; [done|].
  rewrite length_insert. by eapply lookup_lt_Some.
Qed.

Lemma swap_lookup_ne (a : list T) i j k :
  k <> i -> k <> j -> swap a i j !! k = a !! k.
Proof.
  intros Hi Hj. unfold swap.
  destruct (a !! i), (a !! j); try reflexivity.
  by rewrite !list_lookup_insert_ne by done.
Qed.

(** *** Insertion sort *)

Lemma shift_in_perm x rp : shift_in less x rp ≡ₚ x :: rp.
Proof.
  induction rp as [|y rp IH]; simpl; [reflexivity|].
  destruct (less x y); [|reflexivity].
  rewrite IH. apply Permutation_swap.
Qed.

Lemma shift_in_sorted x rp :
  StronglySorted (flip le) rp -> StronglySorted (flip le) (shift_in less x rp).
Proof.
  induction rp as [|y rp IH]; simpl; intros Hs.
  - repeat constructor.
  - inversion Hs as [|? ? Hs' Hall]; subst.
    destruct (less x y) eqn:E.
    + constructor; [auto|].
      rewrite shift_in_perm. constructor; [|done].
      unfold flip. by apply lt_le.
    + constructor; [done|]. constructor; [exact E|].
      eapply Forall_impl; [exact Hall|].
      unfold flip. intros z Hz. eapply le_of_trans; [exact Hz|exact E].
Qed.

Lemma fold_shift_in_perm a rp :
  fold_left (fun rp x => shift_in less x rp) a rp ≡ₚ a ++ rp.
Proof.
  revert rp. induction a as [|x a IH]; intros rp; simpl; [reflexivity|].
  rewrite IH, shift_in_perm. by rewrite Permutation_middle.
Qed.

Lemma fold_shift_in_sorted a rp :
  StronglySorted (flip le) rp ->
  StronglySorted (flip le) (fold_left (fun rp x => shift_in less x rp) a rp).
Proof.
  revert rp. induction a as [|x a IH]; intros rp Hs; simpl; [done|].
  apply IH. by apply shift_in_sorted.
Qed.

Lemma StronglySorted_reverse (R : T -> T -> Prop) l :
  StronglySorted (flip R) l -> StronglySorted R (reverse l).
Proof.
  induction 1 as [|x l Hs IH Hall]; [rewrite reverse_nil; constructor|].
  rewrite reverse_cons. apply StronglySorted_app_2.
  - intros x1 x2 H1 H2. apply list_elem_of_singleton in H2 as ->.
    rewrite elem_of_reverse in H1.
    rewrite Forall_forall in Hall. by apply Hall.
  - done.
  - repeat constructor.
Qed.

Lemma insertion_sort_perm a : insertion_sort less a ≡ₚ a.
Proof.
  unfold insertion_sort. rewrite reverse_Permutation, fold_shift_in_perm.
  by rewrite app_nil_r.
Qed.

Lemma insertion_sort_sorted a : StronglySorted le (insertion_sort less a).
Proof.
  unfold insertion_sort. apply StronglySorted_reverse.
  apply fold_shift_in_sorted. constructor.
Qed.

(** *** The partition *)

Lemma scan_up_from_spec l vp i :
  (i <= scan_up_from less l vp i)%nat /\
  (forall t x, (i + t < scan_up_from less l vp i)%nat -> l !! t = Some x -> less x vp = true) /\
  (forall x, l !! (scan_up_from less l vp i - i)%nat = Some x -> less x vp = false).
Proof.
  revert i. induction l as [|y l IH]; intros i; simpl.
  - split; [lia|]. split; [intros; lia|]. intros x. by rewrite lookup_nil.
  - destruct (less y vp) eqn:E.
    + destruct (IH (S i)) as (H1 & H2 & H3).
      split; [lia|]. split.
      * intros [|t] x Ht Hx; simpl in Hx; [congruence|].
        apply (H2 t); [lia|done].
      * intros x.
        replace (scan_up_from less l vp (S i) - i)%nat
          with (S (scan_up_from less l vp (S i) - S i)) by lia.
        simpl. apply H3.
    + split; [lia|]. split; [intros; lia|].
      intros x. rewrite Nat.sub_diag. simpl. congruence.
Qed.

Lemma scan_up_ge a vp i : (i <= scan_up less a vp i)%nat.
Proof. unfold scan_up. apply scan_up_from_spec. Qed.

Lemma scan_up_below a vp i t x :
  (i <= t < scan_up less a vp i)%nat -> a !! t = Some x -> less x vp = true.
Proof.
  unfold scan_up. intros Ht Hx.
  destruct (scan_up_from_spec (drop i a) vp i) as (_ & H2 & _).
  apply (H2 (t - i)%nat); [lia|].
  rewrite lookup_drop. by replace (i + (t - i))%nat with t by lia.
Qed.

Lemma scan_up_stop a vp i x :
  a !! scan_up less a vp i = Some x -> less x vp = false.
Proof.
  unfold scan_up. intros Hx.
  destruct (scan_up_from_spec (drop i a) vp i) as (H1 & _ & H3).
  apply H3. rewrite lookup_drop.
  by replace (i + (scan_up_from less (drop i a) vp i - i))%nat
    with (scan_up_from less (drop i a) vp i) by lia.
Qed.

Lemma scan_up_le a vp i s y :
  (i <= s)%nat -> a !! s = Some y -> less y vp = false ->
  (scan_up less a vp i <= s)%nat.
Proof.
  intros Hs Hy Hl.
  destruct (decide (scan_up less a vp i <= s)%nat) as [|Hn]; [done|].
  assert (less y vp = true) by (apply (scan_up_below a vp i s y); [lia|done]).
  congruence.
Qed.

Lemma scan_down_le a vp j : (scan_down less a vp j <= j)%nat.
Proof.
  induction j as [|j IH]; simpl.
  - destruct (a !! 0%nat); [destruct (less vp t)|]; lia.
  - destruct (a !! S j); [|lia]. destruct (less vp t); lia.
Qed.

Lemma scan_down_above a vp j t x :
  (scan_down less a vp j < t <= j)%nat -> a !! t = Some x -> less vp x = true.
Proof.
  induction j as [|j IH]; simpl.
  - destruct (a !! 0%nat); [destruct (less vp t0)|]; lia.
  - destruct (a !! S j) eqn:Ej; [|lia].
    destruct (less vp t0) eqn:El; [|lia].
    intros Ht Hx. destruct (decide (t = S j)) as [->|Hne].
    + congruence.
    + apply IH; [lia|done].
Qed.

Lemma scan_down_stop a vp j s y :
  (s <= j)%nat -> a !! s = Some y -> less vp y = false ->
  (s <= scan_down less a vp j)%nat /\
  forall x, a !! scan_down less a vp j = Some x -> less vp x = false.
Proof.
  intros Hs Hy Hl. induction j as [|j IH]; simpl.
  - assert (s = 0)%nat as -> by lia. rewrite Hy, Hl. split; [lia|]. congruence.
  - destruct (decide (s = S j)) as [->|Hne].
    + rewrite Hy, Hl. split; [lia|]. congruence.
    + destruct (a !! S j) eqn:Ej.
      * destruct (less vp t) eqn:El.
        -- apply IH. lia.
        -- split; [lia|]. congruence.
      * split; [lia|]. congruence.
Qed.

Lemma partition_loop_spec pv fuel : forall a vp pi pj,
  (pi < pj)%nat -> (pj <= pv)%nat -> (S pv < length a)%nat ->
  a !! pv = Some vp ->
  (pj <= fuel)%nat ->
  (forall k x, (k <= pi)%nat -> a !! k = Some x -> less vp x = false) ->
  (forall k x, (pj <= k)%nat -> a !! k = Some x -> less x vp = false) ->
  forall a' pi', partition_loop less fuel a vp pi pj = (a', pi') ->
  a' ≡ₚ a /\ length a' = length a /\ (pi < pi' <= pv)%nat /\
  a' !! pv = Some vp /\
  (forall k x, (k < pi')%nat -> a' !! k = Some x -> less vp x = false) /\
  (forall k x, (pi' <= k)%nat -> a' !! k = Some x -> less x vp = false).
Proof.
  induction fuel as [|fuel IH]; intros a vp pi pj Hlt Hpj Hlen Hpv Hfuel Hlo Hhi a' pi' Heq.
  { lia. }
  simpl in Heq.
  set (i' := scan_up less a vp (S pi)) in *.
  set (j' := scan_down less a vp (pj - 1)) in *.
  assert (Hi1 : (S pi <= i')%nat) by apply scan_up_ge.
  destruct (lookup_lt_is_Some_2 a pj) as [xj Hxj]; [lia|].
  assert (Hi2 : (i' <= pj)%nat).
  { eapply scan_up_le; [lia|exact Hxj|]. eapply Hhi; [|exact Hxj]. lia. }
  assert (Hj1 : (j' <= pj - 1)%nat) by apply scan_down_le.
  destruct (lookup_lt_is_Some_2 a pi) as [xi Hxi]; [lia|].
  destruct (scan_down_stop a vp (pj - 1) pi xi) as [Hj2 Hj3];
    [lia|done|by eapply Hlo|]. fold j' in Hj2, Hj3.
  assert (Hbelow : forall k x, (k < i')%nat -> a !! k = Some x -> less vp x = false).
  { intros k x Hk Hx. destruct (decide (k <= pi)%nat); [by eapply Hlo|].
    apply less_asym. apply (scan_up_below a vp (S pi) k x); [fold i'; lia|exact Hx]. }
  assert (Habove : forall k x, (j' < k)%nat -> a !! k = Some x -> less x vp = false).
  { intros k x Hk Hx. destruct (decide (pj <= k)%nat); [by eapply Hhi|].
    apply less_asym. apply (scan_down_above a vp (pj - 1) k x); [fold j'; lia|exact Hx]. }
  destruct (j' <=? i')%nat eqn:Ecmp.
  - apply Nat.leb_le in Ecmp. injection Heq as <- <-.
    split; [done|]. split; [done|]. split; [lia|]. split; [done|].
    split; [exact Hbelow|].
    intros k x Hk Hx. destruct (decide (k = i')) as [->|Hne].
    + by apply (scan_up_stop a vp (S pi)).
    + apply (Habove k); [lia|done].
  - apply Nat.leb_gt in Ecmp.
    destruct (lookup_lt_is_Some_2 a i') as [xi' Hxi']; [lia|].
    destruct (lookup_lt_is_Some_2 a j') as [xj' Hxj']; [lia|].
    eapply IH in Heq.
    + destruct Heq as (Hp & Hl & Hr & Hpv' & Hlo' & Hhi').
      split; [by rewrite Hp, swap_perm|]. split; [by rewrite Hl, swap_length|].
      split; [lia|]. done.
    + exact Ecmp.
    + lia.
    + by rewrite swap_length.
    + rewrite swap_lookup_ne by lia. done.
    + lia.
    + intros k x Hk Hx. destruct (decide (k = i')) as [->|Hne].
      * rewrite (swap_lookup_l _ _ _ _ _ Hxi' Hxj') in Hx.
        apply Hj3. congruence.
      * rewrite swap_lookup_ne in Hx by lia. apply (Hbelow k); [lia|done].
    + intros k x Hk Hx. destruct (decide (k = j')) as [->|Hne].
      * rewrite (swap_lookup_r _ _ _ _ _ Hxi' Hxj') in Hx.
        apply (scan_up_stop a vp (S pi)). fold i'. congruence.
      * rewrite swap_lookup_ne in Hx by lia. apply (Habove k); [lia|done].
Qed.

Lemma swap_if_less_spec (a : list T) i j x y :
  i <> j -> a !! i = Some x -> a !! j = Some y ->
  swap_if_less less a i j ≡ₚ a /\
  length (swap_if_less less a i j) = length a /\
  (forall k, k <> i -> k <> j -> swap_if_less less a i j !! k = a !! k) /\
  exists x' y', swap_if_less less a i j !! i = Some x' /\
                swap_if_less less a i j !! j = Some y' /\
                less x' y' = false /\
                ((x' = x /\ y' = y) \/ (x' = y /\ y' = x)).
Proof.
  intros Hne Hi Hj. unfold swap_if_less, less_at. rewrite Hi, Hj.
  destruct (less x y) eqn:E.
  - split; [apply swap_perm|]. split; [apply swap_length|].
    split; [intros; by apply swap_lookup_ne|].
    exists y, x. rewrite (swap_lookup_l _ _ _ _ _ Hi Hj), (swap_lookup_r _ _ _ _ _ Hi Hj).
    split; [done|]. split; [done|]. split; [by apply less_asym|]. by right.
  - split; [done|]. split; [done|]. split; [done|].
    exists x, y. split; [done|]. split; [done|]. split; [done|]. by left.
Qed.

Lemma partition_spec (a a' : list T) (pi : nat) :
  (4 <= length a)%nat ->
  partition less a = (a', pi) ->
  a' ≡ₚ a /\
  exists p, a' !! pi = Some p /\
    (forall k x, (k < pi)%nat -> a' !! k = Some x -> le x p) /\
    (forall k x, (pi < k)%nat -> a' !! k = Some x -> le p x).
Proof.
  intros Hn. unfold partition.
  set (pr := (length a - 1)%nat). set (pm := Nat.div2 pr).
  assert (Hpm : (0 < pm /\ pm < pr - 1)%nat).
  { unfold pm. rewrite Nat.div2_div.
    pose proof (Nat.div_mod_eq pr 2). pose proof (Nat.mod_upper_bound pr 2).
    lia. }
  destruct (lookup_lt_is_Some_2 a 0) as [x0 Hx0]; [lia|].
  destruct (lookup_lt_is_Some_2 a pm) as [xm Hxm]; [lia|].
  destruct (lookup_lt_is_Some_2 a pr) as [xr Hxr]; [lia|].
  (* first exchange *)
  destruct (swap_if_less_spec a pm 0 xm x0) as (P1 & L1 & O1 & xm1 & x01 & Hm1 & H01 & C1 & _);
    [lia|done|done|].
  set (a1 := swap_if_less less a pm 0) in *.
  assert (Hr1 : a1 !! pr = Some xr) by (rewrite O1 by lia; done).
  (* second exchange *)
  destruct (swap_if_less_spec a1 pr pm xr xm1) as (P2 & L2 & O2 & xr2 & xm2 & Hr2 & Hm2 & C2 & D2);
    [lia|done|done|].
  set (a2 := swap_if_less less a1 pr pm) in *.
  assert (H02 : a2 !! 0%nat = Some x01) by (rewrite O2 by lia; done).
  assert (C02 : le x01 xr2).
  { destruct D2 as [[-> ->]|[-> ->]]; [|exact C1].
    eapply le_of_trans; [exact C1|exact C2]. }
  (* third exchange *)
  destruct (swap_if_less_spec a2 pm 0 xm2 x01) as (P3 & L3 & O3 & xm3 & x03 & Hm3 & H03 & C3 & D3);
    [lia|done|done|].
  set (a3 := swap_if_less less a2 pm 0) in *.
  assert (Hr3 : a3 !! pr = Some xr2) by (rewrite O3 by lia; done).
  assert (C3r : le xm3 xr2).
  { destruct D3 as [[-> ->]|[-> ->]]; [exact C2|exact C02]. }
  rewrite Hm3.
  destruct (lookup_lt_is_Some_2 a3 (pr - 1)) as [xq Hxq]; [lia|].
  set (a4 := swap a3 pm (pr - 1)).
  assert (L4 : length a4 = length a) by (unfold a4; rewrite swap_length; lia).
  assert (Hpv4 : a4 !! (pr - 1)%nat = Some xm3) by (apply (swap_lookup_r _ _ _ _ _ Hm3 Hxq)).
  assert (H04 : a4 !! 0%nat = Some x03) by (unfold a4; rewrite swap_lookup_ne by lia; done).
  assert (Hr4 : a4 !! pr = Some xr2) by (unfold a4; rewrite swap_lookup_ne by lia; done).
  destruct (partition_loop less (length a4) a4 xm3 0 (pr - 1)) as [a5 pi5] eqn:Eloop.
  intros Heq. injection Heq as <- <-.
  apply (partition_loop_spec (pr - 1)) in Eloop.
  - destruct Eloop as (P5 & L5 & R5 & Hpv5 & Lo5 & Hi5).
    destruct (lookup_lt_is_Some_2 a5 pi5) as [xp Hxp]; [lia|].
    split.
    { rewrite swap_perm, P5. unfold a4. rewrite swap_perm, P3, P2, P1. done. }
    exists xm3. split; [apply (swap_lookup_l _ _ _ _ _ Hxp Hpv5)|].
    split.
    + intros k x Hk Hx. rewrite swap_lookup_ne in Hx by lia. by eapply Lo5.
    + intros k x Hk Hx. destruct (decide (k = pr - 1)%nat) as [->|Hne].
      * rewrite (swap_lookup_r _ _ _ _ _ Hxp Hpv5) in Hx.
        injection Hx as <-. apply (Hi5 pi5); [lia|done].
      * rewrite swap_lookup_ne in Hx by lia. apply (Hi5 k); [lia|done].
  - lia.
  - lia.
  - lia.
  - done.
  - lia.
  - intros k x Hk Hx. assert (k = 0)%nat as -> by lia.
    rewrite H04 in Hx. injection Hx as <-. exact C3.
  - intros k x Hk Hx.
    destruct (decide (k = pr - 1)%nat) as [->|Hne1].
    { rewrite Hpv4 in Hx. injection Hx as <-. apply le_refl. }
    destruct (decide (k = pr)) as [->|Hne2].
    { rewrite Hr4 in Hx. injection Hx as <-. exact C3r. }
    apply lookup_lt_Some in Hx. lia.
Qed.

Lemma partition_sorted_glue (a' l r : list T) (pi : nat) (p : T) :
  a' !! pi = Some p ->
  (forall k x, (k < pi)%nat -> a' !! k = Some x -> le x p) ->
  (forall k x, (pi < k)%nat -> a' !! k = Some x -> le p x) ->
  l ≡ₚ take pi a' -> r ≡ₚ drop (S pi) a' ->
  StronglySorted le l -> StronglySorted le r ->
  StronglySorted le (l ++ p :: r).
Proof.
  intros Hp Hlo Hhi Pl Pr Sl Sr.
  assert (Hl : Forall (fun x => le x p) l).
  { rewrite Pl. apply Forall_lookup. intros k x Hk.
    rewrite lookup_take in Hk. destruct (decide (k < pi)%nat); [|done].
    by eapply Hlo. }
  assert (Hr : Forall (le p) r).
  { rewrite Pr. apply Forall_lookup. intros k x Hk.
    rewrite lookup_drop in Hk. eapply Hhi; [|exact Hk]. lia. }
  apply StronglySorted_app_2; [|done|by constructor].
  intros x1 x2 H1 H2. rewrite Forall_forall in Hl, Hr.
  apply elem_of_cons in H2 as [->|H2]; [by apply Hl|].
  eapply le_of_trans; [by apply Hl|by apply Hr].
Qed.

(** *** Heapsort *)

Lemma set1_length (a : list T) k x : length (set1 a k x) = length a.
Proof. unfold set1. apply length_insert. Qed.

Lemma at1_set1_eq (a : list T) k x :
  (1 <= k <= length a)%nat -> at1 (set1 a k x) k = Some x.
Proof. intros Hk. unfold at1, set1. apply list_lookup_insert_eq. lia. Qed.

Lemma at1_set1_ne (a : list T) i k x :
  (1 <= i)%nat -> (1 <= k)%nat -> i <> k -> at1 (set1 a i x) k = at1 a k.
Proof. intros Hi Hk Hne. unfold at1, set1. apply list_lookup_insert_ne. lia. Qed.

Lemma at1_is_Some (a : list T) k :
  (1 <= k <= length a)%nat -> exists x, at1 a k = Some x.
Proof. intros Hk. unfold at1. apply lookup_lt_is_Some_2. lia. Qed.

Lemma set1_id (a : list T) k x : at1 a k = Some x -> set1 a k x = a.
Proof. unfold at1, set1. apply list_insert_id. Qed.

Lemma sift_length fuel : forall (a : list T) tmp i n,
  length (sift less fuel a tmp i n) = length a.
Proof.
  induction fuel as [|fuel IH]; intros a tmp i n; simpl; [apply set1_length|].
  destruct (n <? i + i)%nat; [apply set1_length|].
  destruct (at1 a _); [|apply set1_length].
  destruct (less tmp t); [|apply set1_length].
  rewrite IH. apply set1_length.
Qed.

Lemma child_range a i n :
  (i + i <= n)%nat ->
  (child less a i n = i + i \/ child less a i n = i + i + 1)%nat /\ (child less a i n <= n)%nat.
Proof.
  intros Hn. unfold child.
  destruct (i + i <? n)%nat eqn:E; simpl.
  - apply Nat.ltb_lt in E. destruct (less1 _ _ _ _); lia.
  - lia.
Qed.

Lemma child_largest a i n c y z :
  (1 <= i)%nat -> (i + i <= n)%nat ->
  (c = 2 * i \/ c = 2 * i + 1)%nat -> (c <= n)%nat ->
  at1 a c = Some y -> at1 a (child less a i n) = Some z -> le y z.
Proof.
  intros Hi Hn Hc Hcn Hy Hz. unfold child in Hz.
  destruct (i + i <? n)%nat eqn:E; simpl in Hz.
  - unfold less1 in Hz.
    destruct (at1 a (i + i)) as [u|] eqn:Eu.
    + destruct (at1 a (i + i + 1)) as [v|] eqn:Ev.
      * destruct (less u v) eqn:Euv.
        -- rewrite Ev in Hz. injection Hz as <-.
           destruct Hc as [->| ->].
           ++ replace (2 * i)%nat with (i + i)%nat in Hy by lia.
              rewrite Eu in Hy. injection Hy as <-. by apply lt_le.
           ++ replace (2 * i + 1)%nat with (i + i + 1)%nat in Hy by lia.
              rewrite Ev in Hy. injection Hy as <-. apply le_refl.
        -- rewrite Eu in Hz. injection Hz as <-.
           destruct Hc as [->| ->].
           ++ replace (2 * i)%nat with (i + i)%nat in Hy by lia.
              rewrite Eu in Hy. injection Hy as <-. apply le_refl.
           ++ replace (2 * i + 1)%nat with (i + i + 1)%nat in Hy by lia.
              rewrite Ev in Hy. injection Hy as <-. exact Euv.
      * rewrite Eu in Hz. injection Hz as <-.
        destruct Hc as [->| ->].
        -- replace (2 * i)%nat with (i + i)%nat in Hy by lia.
           rewrite Eu in Hy. injection Hy as <-. apply le_refl.
        -- replace (2 * i + 1)%nat with (i + i + 1)%nat in Hy by lia. congruence.
    + rewrite Eu in Hz. discriminate.
  - apply Nat.ltb_ge in E. assert (c = i + i)%nat as -> by lia.
    rewrite Hy in Hz. injection Hz as <-. apply le_refl.
Qed.

Lemma sift_unfold fuel (a : list T) tmp i n :
  sift less (S fuel) a tmp i n =
    if (n <? i + i)%nat then set1 a i tmp
    else match at1 a (child less a i n) with
         | Some aj =>
             if less tmp aj then sift less fuel (set1 a i aj) tmp (child less a i n) n
             else set1 a i tmp
         | None => set1 a i tmp
         end.
Proof. reflexivity. Qed.

Lemma sift_outside fuel : forall (a : list T) tmp i n k,
  (1 <= i <= n)%nat -> (1 <= k)%nat -> (k < i \/ n < k)%nat ->
  at1 (sift less fuel a tmp i n) k = at1 a k.
Proof.
  induction fuel as [|fuel IH]; intros a tmp i n k Hi Hk Hout.
  { simpl. apply at1_set1_ne; lia. }
  rewrite sift_unfold.
  destruct (n <? i + i)%nat eqn:E; [apply at1_set1_ne; lia|].
  apply Nat.ltb_ge in E. destruct (child_range a i n E) as [Hc Hcn].
  destruct (at1 a (child less a i n)); [|apply at1_set1_ne; lia].
  destruct (less tmp t); [|apply at1_set1_ne; lia].
  rewrite IH by lia. apply at1_set1_ne; lia.
Qed.

Lemma sift_perm fuel : forall (a : list T) tmp i n,
  (1 <= i <= n)%nat -> (n <= length a)%nat ->
  sift less fuel a tmp i n ≡ₚ set1 a i tmp.
Proof.
  induction fuel as [|fuel IH]; intros a tmp i n Hi Hn; [reflexivity|].
  rewrite sift_unfold.
  destruct (n <? i + i)%nat eqn:E; [reflexivity|].
  apply Nat.ltb_ge in E. destruct (child_range a i n E) as [Hc Hcn].
  destruct (at1 a (child less a i n)) as [aj|] eqn:Ej; [|reflexivity].
  destruct (less tmp aj); [|reflexivity].
  rewrite IH by (rewrite ?set1_length; lia).
  unfold set1, at1 in *.
  set (j := child less a i n) in *.
  assert (Hb1 : <[(i - 1)%nat:=tmp]> a !! (i - 1)%nat = Some tmp)
    by (apply list_lookup_insert_eq; lia).
  assert (Hb2 : <[(i - 1)%nat:=tmp]> a !! (j - 1)%nat = Some aj)
    by (rewrite list_lookup_insert_ne by lia; done).
  etrans; [|apply (Permutation_insert_swap _ _ _ _ _ Hb1 Hb2)].
  by rewrite list_insert_insert_eq.
Qed.

Lemma place_heap l n (a : list T) tmp i :
  (1 <= l <= i)%nat -> (i <= n <= length a)%nat ->
  (forall k, (l <= k <= n)%nat -> k <> i -> heap_at less a n k) ->
  (forall k x, (l <= k)%nat -> (i = 2 * k \/ i = 2 * k + 1)%nat ->
     at1 a k = Some x -> le tmp x) ->
  (forall c y, (c = 2 * i \/ c = 2 * i + 1)%nat -> (c <= n)%nat ->
     at1 a c = Some y -> le y tmp) ->
  forall k, (l <= k <= n)%nat -> heap_at less (set1 a i tmp) n k.
Proof.
  intros Hl Hn Hheap Hpar Hch k Hk c x y Hc Hcn Hx Hy.
  destruct (decide (k = i)) as [->|Hne].
  - rewrite at1_set1_eq in Hx by lia. injection Hx as <-.
    rewrite at1_set1_ne in Hy by lia. by eapply Hch.
  - rewrite at1_set1_ne in Hx by lia.
    destruct (decide (c = i)) as [->|Hnc].
    + rewrite at1_set1_eq in Hy by lia. injection Hy as <-.
      eapply Hpar; [|exact Hc|exact Hx]. lia.
    + rewrite at1_set1_ne in Hy by lia.
      eapply (Hheap k); eauto.
Qed.

Lemma sift_heap l n fuel : forall (a : list T) tmp i,
  (1 <= l <= i)%nat -> (i <= n <= length a)%nat -> (n <= fuel + i)%nat ->
  (forall k, (l <= k <= n)%nat -> k <> i -> heap_at less a n k) ->
  (i <> l -> heap_at less a n i) ->
  (forall k x, (l <= k)%nat -> (i = 2 * k \/ i = 2 * k + 1)%nat ->
     at1 a k = Some x -> le tmp x) ->
  forall k, (l <= k <= n)%nat -> heap_at less (sift less fuel a tmp i n) n k.
Proof.
  induction fuel as [|fuel IH]; intros a tmp i Hl Hn Hfuel Hheap Hi Hpar.
  { simpl. apply (place_heap l); try done. intros; lia. }
  rewrite sift_unfold.
  destruct (n <? i + i)%nat eqn:E.
  { apply Nat.ltb_lt in E. apply (place_heap l); try done. intros; lia. }
  apply Nat.ltb_ge in E. destruct (child_range a i n E) as [Hc Hcn].
  destruct (at1_is_Some a (child less a i n)) as [aj Ej]; [lia|].
  rewrite Ej.
  destruct (less tmp aj) eqn:Eless.
  - set (j := child less a i n) in *.
    apply IH.
    + lia.
    + rewrite set1_length. lia.
    + lia.
    + intros k Hk Hkj c x y Hcc Hccn Hx Hy.
      destruct (decide (k = i)) as [->|Hki].
      * rewrite at1_set1_eq in Hx by lia. injection Hx as <-.
        rewrite at1_set1_ne in Hy by lia.
        apply (child_largest a i n c); try done; lia.
      * rewrite at1_set1_ne in Hx by lia.
        destruct (decide (c = i)) as [->|Hci].
        -- rewrite at1_set1_eq in Hy by lia. injection Hy as <-.
           destruct (at1_is_Some a i) as [xi Exi]; [lia|].
           apply (le_of_trans _ xi).
           ++ assert (Hil : i <> l) by lia.
              apply (Hi Hil j xi aj); [lia|lia|done|done].
           ++ apply (Hheap k Hk Hki i x xi); [done|lia|done|done].
        -- rewrite at1_set1_ne in Hy by lia.
           apply (Hheap k Hk Hki c x y); done.
    + intros _ c x y Hcc Hccn Hx Hy.
      rewrite at1_set1_ne in Hx by lia.
      rewrite at1_set1_ne in Hy by lia.
      assert (Hjn : (l <= j <= n)%nat) by lia.
      assert (Hji : j <> i) by lia.
      apply (Hheap j Hjn Hji c x y); done.
    + intros k x Hk Hjk Hx.
      assert (k = i) as -> by lia.
      rewrite at1_set1_eq in Hx by lia. injection Hx as <-.
      by apply lt_le.
  - apply (place_heap l); try done.
    intros c y Hcc Hccn Hy.
    destruct (at1_is_Some a (child less a i n)) as [z Ez]; [lia|].
    apply (le_of_trans _ aj); [|exact Eless].
    apply (child_largest a i n c); try done; lia.
Qed.

Lemma heapify_spec n : forall l (a : list T),
  (l <= n <= length a)%nat ->
  (forall k, (l < k <= n)%nat -> heap_at less a n k) ->
  heapify less l a n ≡ₚ a /\
  length (heapify less l a n) = length a /\
  (forall k, (1 <= k <= n)%nat -> heap_at less (heapify less l a n) n k).
Proof.
  induction l as [|l IH]; intros a Hl Hheap.
  { simpl. split; [done|]. split; [done|]. intros k Hk. apply Hheap. lia. }
  simpl.
  destruct (at1_is_Some a (S l)) as [tmp Etmp]; [lia|].
  rewrite Etmp.
  assert (Hh : forall k, (S l <= k <= n)%nat ->
             heap_at less (sift less n a tmp (S l) n) n k).
  { apply (sift_heap (S l)); try lia.
    intros k Hk Hne. apply Hheap. lia. }
  destruct (IH (sift less n a tmp (S l) n)) as (P & L & H).
  - rewrite sift_length. lia.
  - intros k Hk. apply Hh. lia.
  - split.
    + rewrite P, sift_perm by lia. by rewrite set1_id.
    + split; [by rewrite L, sift_length|done].
Qed.

Lemma heap_root_max (a : list T) n :
  (n <= length a)%nat ->
  (forall k, (1 <= k <= n)%nat -> heap_at less a n k) ->
  forall k x r, (1 <= k <= n)%nat -> at1 a k = Some x -> at1 a 1 = Some r -> le x r.
Proof.
  intros Hn Hheap k. induction (lt_wf k) as [k _ IH].
  intros x r Hk Hx Hr.
  destruct (decide (k = 1)) as [->|Hne].
  { rewrite Hx in Hr. injection Hr as <-. apply le_refl. }
  pose proof (Nat.div_mod_eq k 2) as Hdm.
  pose proof (Nat.mod_upper_bound k 2) as Hmb.
  set (p := (k / 2)%nat) in *.
  assert (Hp : (1 <= p < k)%nat) by lia.
  destruct (at1_is_Some a p) as [y Ey]; [lia|].
  apply (le_of_trans _ y).
  - apply (Hheap p) with (c := k); [lia|lia|lia|done|done].
  - apply (IH p); [lia|lia|done|done].
Qed.

Lemma drop_at1_ext (a b : list T) n :
  length a = length b ->
  (forall k, (n < k)%nat -> at1 a k = at1 b k) -> drop n a = drop n b.
Proof.
  intros Hlen H. apply list_eq. intros i. rewrite !lookup_drop.
  specialize (H (S (n + i))). unfold at1 in H. simpl in H.
  rewrite Nat.sub_0_r in H. apply H. lia.
Qed.

Lemma heap_extract_unfold n (a : list T) :
  (1 <= n)%nat ->
  heap_extract less (S n) a =
    match at1 a (S n), at1 a 1 with
    | Some tmp, Some top =>
        heap_extract less n (sift less n (set1 a (S n) top) tmp 1 n)
    | _, _ => a
    end.
Proof. intros Hn. destruct n; [lia|reflexivity]. Qed.

Lemma heap_extract_spec : forall n (a : list T),
  (n <= length a)%nat ->
  (forall k, (1 <= k <= n)%nat -> heap_at less a n k) ->
  StronglySorted le (drop n a) ->
  (forall x y, x ∈ take n a -> y ∈ drop n a -> le x y) ->
  heap_extract less n a ≡ₚ a /\ StronglySorted le (heap_extract less n a).
Proof.
  induction n as [|n IH]; intros a Hn Hheap Hs Hcross.
  { simpl. split; [done|]. by rewrite drop_0 in Hs. }
  destruct (decide (n = 0)%nat) as [->|Hn0].
  { simpl. split; [done|]. rewrite <- (take_drop 1 a).
    apply StronglySorted_app_2; [done| |done].
    destruct a as [|x a]; simpl; [constructor|].
    rewrite take_0. repeat constructor. }
  rewrite heap_extract_unfold by lia.
  destruct (at1_is_Some a (S n)) as [tmp Etmp]; [lia|].
  destruct (at1_is_Some a 1) as [top Etop]; [lia|].
  rewrite Etmp, Etop.
  set (a1 := set1 a (S n) top).
  set (a2 := sift less n a1 tmp 1 n).
  set (b := set1 a1 1 tmp).
  assert (La1 : length a1 = length a) by apply set1_length.
  assert (La2 : length a2 = length a) by (unfold a2; by rewrite sift_length).
  assert (Lb : length b = length a) by (unfold b; by rewrite set1_length).
  assert (Pa2 : a2 ≡ₚ b) by (apply sift_perm; lia).
  assert (Pb : b ≡ₚ a).
  { unfold b, a1, set1, at1 in *. simpl in *. rewrite Nat.sub_0_r in *.
    by apply Permutation_insert_swap. }
  assert (Da1 : drop n a1 = top :: drop (S n) a).
  { unfold a1, set1. simpl. rewrite Nat.sub_0_r.
    rewrite insert_take_drop by lia.
    rewrite drop_app_length'; [done|]. rewrite length_take. lia. }
  assert (Da2 : drop n a2 = drop n a1).
  { apply drop_at1_ext; [lia|]. intros k Hk. apply sift_outside; lia. }
  assert (Db : drop n b = drop n a1).
  { apply drop_at1_ext; [lia|]. intros k Hk. apply at1_set1_ne; lia. }
  assert (Htop : forall x, x ∈ take (S n) a -> le x top).
  { intros x Hx. apply list_elem_of_lookup in Hx as [i Hi].
    rewrite lookup_take in Hi. destruct (decide (i < S n)%nat); [|done].
    apply (heap_root_max a (S n) Hn Hheap (S i)); [lia| |done].
    unfold at1. simpl. by rewrite Nat.sub_0_r. }
  assert (Hsub : forall x, x ∈ take n a2 -> x ∈ take (S n) a).
  { intros x Hx.
    assert (Pt : take n a2 ≡ₚ take n b).
    { apply (Permutation_app_inv_r (drop n a2)).
      rewrite take_drop, Da2, <- Db, take_drop. done. }
    rewrite Pt in Hx. apply list_elem_of_lookup in Hx as [i Hi].
    rewrite lookup_take in Hi. destruct (decide (i < n)%nat) as [Hin|]; [|done].
    apply list_elem_of_lookup.
    destruct (decide (i = 0)%nat) as [->|Hne].
    - exists n. rewrite lookup_take. destruct (decide (n < S n)%nat); [|lia].
      unfold b, set1 in Hi. simpl in Hi.
      rewrite list_lookup_insert_eq in Hi by lia.
      unfold at1 in Etmp. simpl in Etmp. rewrite Nat.sub_0_r in Etmp. congruence.
    - exists i. rewrite lookup_take. destruct (decide (i < S n)%nat); [|lia].
      unfold b, a1, set1 in Hi. simpl in Hi. rewrite Nat.sub_0_r in Hi.
      rewrite !list_lookup_insert_ne in Hi by lia. done. }
  destruct (IH a2) as [P S2].
  - lia.
  - apply (sift_heap 1); try lia.
    intros k Hk Hne c x y Hc Hcn Hx Hy.
    unfold a1 in Hx, Hy.
    rewrite at1_set1_ne in Hx by lia. rewrite at1_set1_ne in Hy by lia.
    apply (Hheap k) with (c := c); [lia|done|lia|done|done].
  - rewrite Da2, Da1. constructor; [done|].
    apply Forall_forall. intros y Hy. apply Hcross; [|done].
    apply list_elem_of_lookup. exists 0%nat. rewrite lookup_take.
    destruct (decide (0 < S n)%nat); [|lia].
    unfold at1 in Etop. simpl in Etop. done.
  - intros x y Hx Hy. rewrite Da2, Da1 in Hy.
    apply Hsub in Hx.
    apply elem_of_cons in Hy as [->|Hy]; [by apply Htop|by apply Hcross].
  - split; [|done]. by rewrite P, Pa2, Pb.
Qed.

Lemma heapsort_perm (a : list T) : heapsort_ less a ≡ₚ a.
Proof.
  unfold heapsort_.
  assert (Hd : (Nat.div2 (length a) <= length a <= length a)%nat).
  { rewrite Nat.div2_div. pose proof (Nat.div_mod_eq (length a) 2). lia. }
  assert (Hv : forall k, (Nat.div2 (length a) < k <= length a)%nat ->
               heap_at less a (length a) k).
  { intros k Hk c x y Hc Hcn. rewrite Nat.div2_div in Hk.
    pose proof (Nat.div_mod_eq (length a) 2).
    pose proof (Nat.mod_upper_bound (length a) 2). lia. }
  destruct (heapify_spec (length a) _ a Hd Hv) as (P & L & H).
  destruct (heap_extract_spec (length a) (heapify less (Nat.div2 (length a)) a (length a)))
    as [P2 _].
  - lia.
  - done.
  - rewrite drop_ge by lia. constructor.
  - intros x y _ Hy. rewrite drop_ge in Hy by lia. by apply elem_of_nil in Hy.
  - by rewrite P2.
Qed.

Lemma heapsort_sorted (a : list T) : StronglySorted le (heapsort_ less a).
Proof.
  unfold heapsort_.
  assert (Hd : (Nat.div2 (length a) <= length a <= length a)%nat).
  { rewrite Nat.div2_div. pose proof (Nat.div_mod_eq (length a) 2). lia. }
  assert (Hv : forall k, (Nat.div2 (length a) < k <= length a)%nat ->
               heap_at less a (length a) k).
  { intros k Hk c x y Hc Hcn. rewrite Nat.div2_div in Hk.
    pose proof (Nat.div_mod_eq (length a) 2).
    pose proof (Nat.mod_upper_bound (length a) 2). lia. }
  destruct (heapify_spec (length a) _ a Hd Hv) as (P & L & H).
  destruct (heap_extract_spec (length a) (heapify less (Nat.div2 (length a)) a (length a)))
    as [_ S2].
  - lia.
  - done.
  - rewrite drop_ge by lia. constructor.
  - intros x y _ Hy. rewrite drop_ge in Hy by lia. by apply elem_of_nil in Hy.
  - done.
Qed.

(** *** The whole sort *)

Lemma introsort_spec fuel : forall popped cdepth (a : list T),
  (length a < fuel)%nat ->
  introsort less fuel popped cdepth a ≡ₚ a /\
  StronglySorted le (introsort less fuel popped cdepth a).
Proof.
  induction fuel as [|fuel IH]; intros popped cdepth a Hf; [lia|].
  simpl.
  destruct (popped && (cdepth <? 0)%Z).
  { split; [apply heapsort_perm|apply heapsort_sorted]. }
  destruct (SMALL_QUICKSORT <? length a - 1)%nat eqn:E.
  - apply Nat.ltb_lt in E. unfold SMALL_QUICKSORT in E.
    destruct (partition less a) as [a' pi] eqn:Ep.
    destruct (partition_spec a a' pi) as (P & p & Hp & Hlo & Hhi); [lia|done|].
    rewrite Hp.
    assert (Hlen : length a' = length a) by (by rewrite P).
    assert (Hpi : (pi < length a')%nat) by (by eapply lookup_lt_Some).
    assert (Ha' : a' = take pi a' ++ p :: drop (S pi) a')
      by (symmetry; by apply take_drop_middle).
    assert (Hll : (length (take pi a') < fuel)%nat) by (rewrite length_take; lia).
    assert (Hlr : (length (drop (S pi) a') < fuel)%nat) by (rewrite length_drop; lia).
    destruct (length (take pi a') <? length (drop (S pi) a'))%nat.
    + destruct (IH false (cdepth - 1)%Z _ Hll) as [Pl Sl].
      destruct (IH true (cdepth - 1)%Z _ Hlr) as [Pr Sr].
      split.
      * rewrite Pl, Pr, <- Ha'. done.
      * by apply (partition_sorted_glue a' _ _ pi p).
    + destruct (IH true (cdepth - 1)%Z _ Hll) as [Pl Sl].
      destruct (IH false (cdepth - 1)%Z _ Hlr) as [Pr Sr].
      split.
      * rewrite Pl, Pr, <- Ha'. done.
      * by apply (partition_sorted_glue a' _ _ pi p).
  - split; [apply insertion_sort_perm|apply insertion_sort_sorted].
Qed.

Lemma quicksort_perm (a : list T) : quicksort_ less a ≡ₚ a.
Proof. unfold quicksort_. apply introsort_spec. lia. Qed.

Lemma quicksort_sorted (a : list T) : StronglySorted le (quicksort_ less a).
Proof. unfold quicksort_. apply introsort_spec. lia. Qed.
End npysort_correct.

Local Open Scope Q_scope.

(** ** The orders the script sorts by *)

Lemma nat_ltb_asym (x y : nat) : Nat.ltb x y = true -> Nat.ltb y x = false.
Proof. rewrite Nat.ltb_lt, Nat.ltb_ge. lia. Qed.

Lemma nat_le_of_trans (x y z : nat) :
  le_of Nat.ltb x y -> le_of Nat.ltb y z -> le_of Nat.ltb x z.
Proof. unfold le_of. rewrite !Nat.ltb_ge. lia. Qed.

Lemma Qlt_bool_asym (x y : Q) : Qlt_bool x y = true -> Qlt_bool y x = false.
Proof. rewrite Qlt_bool_iff, Qlt_bool_false_iff. apply Qlt_le_weak. Qed.

Lemma Q_le_of_trans (x y z : Q) :
  le_of Qlt_bool x y -> le_of Qlt_bool y z -> le_of Qlt_bool x z.
Proof. unfold le_of. rewrite !Qlt_bool_false_iff. apply Qle_trans. Qed.

Lemma ascii_compare_lt_trans (a b c : Ascii.ascii) :
  Ascii.compare a b = Lt -> Ascii.compare b c = Lt -> Ascii.compare a c = Lt.
Proof.
  unfold Ascii.compare. rewrite !N.compare_lt_iff. apply N.lt_trans.
Qed.

Lemma string_compare_le_trans (x : string) : forall y z : string,
  String.compare x y <> Gt -> String.compare y z <> Gt -> String.compare x z <> Gt.
Proof.
  induction x as [|a x IH]; intros [|b y] [|c z]; simpl; try congruence.
  destruct (Ascii.compare a b) eqn:Eab.
  - apply Ascii.compare_eq_iff in Eab as ->.
    destruct (Ascii.compare b c); try congruence. apply IH.
  - intros _. destruct (Ascii.compare b c) eqn:Ebc.
    + apply Ascii.compare_eq_iff in Ebc as <-. rewrite Eab. congruence.
    + rewrite (ascii_compare_lt_trans _ _ _ Eab Ebc). congruence.
    + congruence.
  - congruence.
Qed.

Lemma string_ltb_asym (x y : string) :
  String.ltb x y = true -> String.ltb y x = false.
Proof.
  unfold String.ltb. rewrite (String.compare_antisym x y).
  destruct (String.compare y x); simpl; congruence.
Qed.

Lemma string_le_of_trans (x y z : string) :
  le_of String.ltb x y -> le_of String.ltb y z -> le_of String.ltb x z.
Proof.
  unfold le_of, String.ltb. intros Hxy Hyz.
  assert (H1 : String.compare x y <> Gt).
  { rewrite String.compare_antisym. destruct (String.compare y x); simpl; congruence. }
  assert (H2 : String.compare y z <> Gt).
  { rewrite String.compare_antisym. destruct (String.compare z y); simpl; congruence. }
  pose proof (string_compare_le_trans x y z H1 H2) as H3.
  rewrite String.compare_antisym. destruct (String.compare x z); simpl; congruence.
Qed.

(** ** Sorted tables *)

Section sort_values_correct.
Context (kind : kernel) {R K : Type} (less : K -> K -> bool) (by_ : R -> option K).
Hypothesis kind_sorts : sorts kind.
Hypothesis less_asym : forall x y, less x y = true -> less y x = false.
Hypothesis le_of_trans :
  forall x y z, le_of less x y -> le_of less y z -> le_of less x z.

Lemma split_tagged_perm (l : list (nat * option K)) :
  map fst (omap (fun p : nat * option K =>
                   match p.2 with Some k => Some (p.1, k) | None => None end) l)
  ++ omap (fun p : nat * option K =>
             match p.2 with None => Some p.1 | Some _ => None end) l
  ≡ₚ map fst l.
Proof.
  induction l as [|[i [k|]] l IH]; simpl; [done| |].
  - by rewrite IH.
  - rewrite <- Permutation_middle. by rewrite IH.
Qed.

Lemma by_snd_asym (x y : nat * K) : less x.2 y.2 = true -> less y.2 x.2 = false.
Proof. apply less_asym. Qed.

Lemma by_snd_trans (x y z : nat * K) :
  le_of (fun x y : nat * K => less x.2 y.2) x y ->
  le_of (fun x y : nat * K => less x.2 y.2) y z ->
  le_of (fun x y : nat * K => less x.2 y.2) x z.
Proof. unfold le_of. apply le_of_trans. Qed.

Lemma kind_perm (a : list (nat * K)) :
  kind (nat * K)%type (fun x y : nat * K => less x.2 y.2) a ≡ₚ a.
Proof. apply (kind_sorts _ _ by_snd_asym by_snd_trans). Qed.

Lemma kind_sorted (a : list (nat * K)) :
  StronglySorted (fun p q : nat * K => le_of less p.2 q.2)
    (kind (nat * K)%type (fun x y : nat * K => less x.2 y.2) a).
Proof. apply (kind_sorts _ _ by_snd_asym by_snd_trans). Qed.

Lemma nargsort_with_perm (items : list (option K)) (ascending : bool) :
  nargsort_with kind less items ascending ≡ₚ seq 0 (length items).
Proof.
  unfold nargsort_with.
  set (tagged := zip (seq 0 (length items)) items).
  assert (Hfst : map fst tagged = seq 0 (length items)).
  { unfold tagged. apply fst_zip. by rewrite length_seq. }
  rewrite <- Hfst, <- (split_tagged_perm tagged).
  apply Permutation_app; [|done].
  destruct ascending.
  - by rewrite kind_perm.
  - by rewrite reverse_Permutation, kind_perm, reverse_Permutation.
Qed.

Lemma omap_ext_elem {A B : Type} (f g : A -> option B) (l : list A) :
  (forall x, x ∈ l -> f x = g x) -> omap f l = omap g l.
Proof.
  induction l as [|x l IH]; intros H; csimpl; [done|].
  rewrite (H x) by apply list_elem_of_here.
  rewrite IH; [done|]. intros y Hy. apply H. by apply list_elem_of_further.
Qed.

Lemma take_rows_seq (df : list R) : take_rows df (seq 0 (length df)) = df.
Proof.
  unfold take_rows. induction df as [|r df IH] using rev_ind; [done|].
  rewrite length_app. simpl. rewrite Nat.add_1_r, seq_S, omap_app. simpl.
  rewrite lookup_app_r by lia. rewrite Nat.sub_diag. simpl.
  f_equal. rewrite <- IH at 2.
  apply omap_ext_elem. intros i Hi.
  apply elem_of_seq in Hi. apply lookup_app_l. lia.
Qed.

Lemma sort_values_with_perm (ascending : bool) (df : list R) :
  sort_values_with kind less by_ ascending df ≡ₚ df.
Proof.
  unfold sort_values_with.
  transitivity (take_rows df (seq 0 (length df))); [|by rewrite take_rows_seq].
  unfold take_rows. apply omap_Permutation.
  rewrite nargsort_with_perm. by rewrite length_map.
Qed.

(** The rows picked by positions that carry their keys. *)
Lemma take_rows_keys (df : list R) (S : list (nat * K)) :
  (forall p, p ∈ S -> exists r, df !! p.1 = Some r /\ by_ r = Some p.2) ->
  map by_ (take_rows df (map fst S)) = map (fun p => Some p.2) S.
Proof.
  unfold take_rows. induction S as [|p S IH]; intros H; simpl; [done|].
  destruct (H p) as (r & Hr & Hk); [apply list_elem_of_here|].
  rewrite Hr. simpl. rewrite Hk. f_equal.
  apply IH. intros q Hq. apply H. by apply list_elem_of_further.
Qed.

Lemma take_rows_nans (df : list R) (N : list nat) :
  (forall i, i ∈ N -> exists r, df !! i = Some r /\ by_ r = None) ->
  Forall (fun k => k = None) (map by_ (take_rows df N)).
Proof.
  unfold take_rows. induction N as [|i N IH]; intros H; simpl; [constructor|].
  destruct (H i) as (r & Hr & Hk); [apply list_elem_of_here|].
  rewrite Hr. simpl. constructor; [done|].
  apply IH. intros j Hj. apply H. by apply list_elem_of_further.
Qed.

Lemma tagged_non_nan (df : list R) (p : nat * K) :
  p ∈ omap (fun p : nat * option K =>
              match p.2 with Some k => Some (p.1, k) | None => None end)
           (zip (seq 0 (length (map by_ df))) (map by_ df)) ->
  exists r, df !! p.1 = Some r /\ by_ r = Some p.2.
Proof.
  intros Hp. apply list_elem_of_omap in Hp as ([i [k|]] & Hq & Heq); [|done].
  simpl in Heq. injection Heq as <-. simpl.
  apply elem_of_lookup_zip_with in Hq as (j & x & y & Hxy & Hx & Hy).
  injection Hxy as -> ->.
  apply lookup_seq in Hx as [-> _]. simpl.
  rewrite list_lookup_fmap in Hy.
  destruct (df !! j) as [r|]; [|done]. simpl in Hy. injection Hy as Hy.
  by exists r.
Qed.

Lemma tagged_nan (df : list R) (i : nat) :
  i ∈ omap (fun p : nat * option K =>
              match p.2 with None => Some p.1 | Some _ => None end)
           (zip (seq 0 (length (map by_ df))) (map by_ df)) ->
  exists r, df !! i = Some r /\ by_ r = None.
Proof.
  intros Hp. apply list_elem_of_omap in Hp as ([i' [k|]] & Hq & Heq); [done|].
  simpl in Heq. injection Heq as <-.
  apply elem_of_lookup_zip_with in Hq as (j & x & y & Hxy & Hx & Hy).
  injection Hxy as -> ->.
  apply lookup_seq in Hx as [-> _]. simpl.
  rewrite list_lookup_fmap in Hy.
  destruct (df !! j) as [r|]; [|done]. simpl in Hy. injection Hy as Hy.
  by exists r.
Qed.

Lemma StronglySorted_flip_reverse {A : Type} (P : A -> A -> Prop) (l : list A) :
  StronglySorted P l -> StronglySorted (flip P) (reverse l).
Proof.
  intros H. apply StronglySorted_reverse. exact H.
Qed.

Lemma sorted_keys_then_nans (ascending : bool) (ks : list K) (ns : list (option K)) :
  StronglySorted (fun x y => if ascending then le_of less x y else le_of less y x) ks ->
  Forall (fun k => k = None) ns ->
  StronglySorted (key_le less ascending) (map Some ks ++ ns).
Proof.
  intros Hs Hn. apply StronglySorted_app_2.
  - intros a b Ha Hb. rewrite Forall_forall in Hn.
    rewrite (Hn b Hb). by destruct a.
  - induction Hs as [|x ks Hs IH Hall]; simpl; constructor; [done|].
    apply Forall_fmap. eapply Forall_impl; [exact Hall|]. done.
  - induction Hn as [|? ns -> Hn IH]; constructor; [done|].
    apply Forall_forall. intros b Hb. rewrite Forall_forall in Hn.
    by rewrite (Hn b Hb).
Qed.

Lemma sort_values_with_sorted (ascending : bool) (df : list R) :
  StronglySorted (key_le less ascending)
    (map by_ (sort_values_with kind less by_ ascending df)).
Proof.
  unfold sort_values_with, nargsort_with.
  set (non_nan := omap _ _). set (nan_idx := omap (fun p : nat * option K =>
    match p.2 with None => Some p.1 | Some _ => None end) _).
  set (S := kind _ _ (if ascending then non_nan else reverse non_nan)).
  assert (HS : forall p, p ∈ S -> exists r, df !! p.1 = Some r /\ by_ r = Some p.2).
  { intros p Hp. apply tagged_non_nan. fold non_nan.
    unfold S in Hp. rewrite kind_perm in Hp.
    destruct ascending; [done|]. by rewrite elem_of_reverse in Hp. }
  assert (Hsorted : StronglySorted (fun p q : nat * K => le_of less p.2 q.2) S).
  { apply kind_sorted. }
  assert (HN : forall i, i ∈ nan_idx -> exists r, df !! i = Some r /\ by_ r = None).
  { intros i Hi. by apply tagged_nan. }
  unfold take_rows. rewrite omap_app, map_app.
  change (omap (fun i => df !! i) nan_idx) with (take_rows df nan_idx).
  destruct ascending.
  - change (omap (fun i => df !! i) (map fst S)) with (take_rows df (map fst S)).
    rewrite (take_rows_keys df S HS).
    rewrite <- (map_map snd Some).
    apply sorted_keys_then_nans; [|by apply take_rows_nans].
    eapply StronglySorted_fmap; [|exact Hsorted]. done.
  - change (reverse (map fst S)) with (reverse (fst <$> S)).
    rewrite <- fmap_reverse.
    change (omap (fun i => df !! i) (fst <$> reverse S))
      with (take_rows df (map fst (reverse S))).
    rewrite (take_rows_keys df (reverse S)).
    + rewrite <- (map_map snd Some).
      apply sorted_keys_then_nans; [|by apply take_rows_nans].
      eapply StronglySorted_fmap;
        [|apply (StronglySorted_flip_reverse (fun p q : nat * K => le_of less p.2 q.2));
          exact Hsorted].
      done.
    + intros p Hp. apply HS. by rewrite elem_of_reverse in Hp.
Qed.
End sort_values_correct.

(** [quicksort_] is such a code. *)
Lemma quicksort_sorts : sorts (@quicksort_).
Proof.
  intros T less Hasym Htrans a. split.
  - by apply quicksort_perm.
  - by apply quicksort_sorted.
Qed.

Section sort_values_quicksort.
Context {R K : Type} (less : K -> K -> bool) (by_ : R -> option K).
Hypothesis less_asym : forall x y, less x y = true -> less y x = false.
Hypothesis le_of_trans :
  forall x y z, le_of less x y -> le_of less y z -> le_of less x z.

Lemma nargsort_perm (items : list (option K)) (ascending : bool) :
  nargsort less items ascending ≡ₚ seq 0 (length items).
Proof.
  apply (nargsort_with_perm (@quicksort_) less quicksort_sorts less_asym le_of_trans).
Qed.

Lemma sort_values_perm (ascending : bool) (df : list R) :
  sort_values less by_ ascending df ≡ₚ df.
Proof.
  apply (sort_values_with_perm (@quicksort_) less by_ quicksort_sorts less_asym
           le_of_trans).
Qed.

Lemma sort_values_sorted (ascending : bool) (df : list R) :
  StronglySorted (key_le less ascending) (map by_ (sort_values less by_ ascending df)).
Proof.
  apply (sort_values_with_sorted (@quicksort_) less by_ quicksort_sorts less_asym
           le_of_trans).
Qed.
End sort_values_quicksort.

(** ** The fill of missing values *)

Lemma isna_any_false {A : Type} (s : list (option A)) :
  isna_any s = false -> forall x, x ∈ s -> x <> None.
Proof.
  unfold isna_any. intros H x Hx ->.
  assert (existsb isna s = true); [|congruence].
  apply existsb_exists. exists None. split; [|done].
  by apply list_elem_of_In.
Qed.

Lemma isna_any_true {A : Type} (s : list (option A)) :
  isna_any s = true -> None ∈ s.
Proof.
  unfold isna_any. intros H. apply existsb_exists in H as ([x|] & Hx & Hn); [done|].
  by apply list_elem_of_In.
Qed.

Lemma fill_row_num_id (c : NumCol) (m : option Q) (r : Row) :
  num_get c r <> None -> fill_row_num c m r = r.
Proof.
  unfold fill_row_num. destruct c, r as [g ra p l t ma re w]; simpl;
    intros H; (destruct ma, re, w; simpl; congruence).
Qed.

Lemma fill_row_cat_id (c : CatCol) (m : option string) (r : Row) :
  cat_get c r <> None -> fill_row_cat c m r = r.
Proof.
  unfold fill_row_cat. destruct c, r as [g ra p l t ma re w]; simpl;
    intros H; (destruct g, ra, p, l, t; simpl; congruence).
Qed.

Lemma fill_num_eq (df : list Row) (c : NumCol) :
  fill_num df c = map (fill_row_num c (col_mean df c)) df.
Proof.
  unfold fill_num, col_mean.
  destruct (isna_any (map (num_get c) df)) eqn:E; [done|].
  rewrite <- (map_id df) at 1. apply map_ext_in. intros r Hr.
  symmetry. apply fill_row_num_id.
  apply (isna_any_false _ E). apply list_elem_of_In. by apply in_map.
Qed.

Lemma fill_cat_eq (df df' : list Row) (c : CatCol) :
  fill_cat df c = Ok df' ->
  df' = map (fill_row_cat c (col_mode df c)) df /\
  (isna_any (map (cat_get c) df) = true -> exists m, col_mode df c = Some m).
Proof.
  unfold fill_cat, col_mode.
  destruct (isna_any (map (cat_get c) df)) eqn:E.
  - destruct (mode (map (cat_get c) df)) as [|m ms]; [done|].
    intros [= <-]. split; [done|]. intros _. by exists m.
  - intros [= <-]. split; [|done].
    rewrite <- (map_id df) at 1. apply map_ext_in. intros r Hr.
    symmetry. apply fill_row_cat_id.
    apply (isna_any_false _ E). apply list_elem_of_In. by apply in_map.
Qed.

Lemma num_col_fill_num_ne (c c' : NumCol) (m : option Q) (df : list Row) :
  c <> c' ->
  map (num_get c') (map (fill_row_num c m) df) = map (num_get c') df.
Proof.
  intros Hne. rewrite map_map. apply map_ext. intros r.
  destruct c, c'; try done; by destruct r.
Qed.

Lemma cat_col_fill_num (c : NumCol) (c' : CatCol) (m : option Q) (df : list Row) :
  map (cat_get c') (map (fill_row_num c m) df) = map (cat_get c') df.
Proof.
  rewrite map_map. apply map_ext. intros r. destruct c, c'; by destruct r.
Qed.

Lemma cat_col_fill_cat_ne (c c' : CatCol) (m : option string) (df : list Row) :
  c <> c' ->
  map (cat_get c') (map (fill_row_cat c m) df) = map (cat_get c') df.
Proof.
  intros Hne. rewrite map_map. apply map_ext. intros r.
  destruct c, c'; try done; by destruct r.
Qed.

Lemma col_mean_fill_num_ne (c c' : NumCol) (m : option Q) (df : list Row) :
  c <> c' -> col_mean (map (fill_row_num c m) df) c' = col_mean df c'.
Proof. intros H. unfold col_mean. by rewrite num_col_fill_num_ne. Qed.

Lemma col_mode_fill_num (c : NumCol) (c' : CatCol) (m : option Q) (df : list Row) :
  col_mode (map (fill_row_num c m) df) c' = col_mode df c'.
Proof. unfold col_mode. by rewrite cat_col_fill_num. Qed.

Lemma col_mode_fill_cat_ne (c c' : CatCol) (m : option string) (df : list Row) :
  c <> c' -> col_mode (map (fill_row_cat c m) df) c' = col_mode df c'.
Proof. intros H. unfold col_mode. by rewrite cat_col_fill_cat_ne. Qed.

Lemma isna_any_fill_num (c : NumCol) (c' : CatCol) (m : option Q) (df : list Row) :
  isna_any (map (cat_get c') (map (fill_row_num c m) df))
  = isna_any (map (cat_get c') df).
Proof. by rewrite cat_col_fill_num. Qed.

Lemma isna_any_fill_cat_ne (c c' : CatCol) (m : option string) (df : list Row) :
  c <> c' ->
  isna_any (map (cat_get c') (map (fill_row_cat c m) df))
  = isna_any (map (cat_get c') df).
Proof. intros H. by rewrite cat_col_fill_cat_ne. Qed.

(** The cleaned table, row by row: every cell that was missing holds the fill
    value of its column, worked out on the table as loaded. *)
Lemma fill_missing_spec (df df' : list Row) :
  fill_missing df = Ok df' ->
  df' = map (filled_with (col_mean df) (col_mode df)) df /\
  forall c, isna_any (map (cat_get c) df) = true -> exists m, col_mode df c = Some m.
Proof.
  unfold fill_missing, num_cols, cat_cols. simpl.
  rewrite !fill_num_eq.
  rewrite !col_mean_fill_num_ne by done.
  set (d3 := map (fill_row_num Writing _) _).
  destruct (fill_cat d3 Gender) as [d4|] eqn:E4; [|done]. simpl.
  destruct (fill_cat d4 Race_Ethnicity) as [d5|] eqn:E5; [|done]. simpl.
  destruct (fill_cat d5 Parental_Education) as [d6|] eqn:E6; [|done]. simpl.
  destruct (fill_cat d6 Lunch) as [d7|] eqn:E7; [|done]. simpl.
  intros E8.
  apply fill_cat_eq in E4 as [-> H4].
  apply fill_cat_eq in E5 as [-> H5].
  apply fill_cat_eq in E6 as [-> H6].
  apply fill_cat_eq in E7 as [-> H7].
  apply fill_cat_eq in E8 as [-> H8].
  unfold d3 in *.
  repeat (rewrite ?col_mode_fill_cat_ne, ?col_mode_fill_num in * by done).
  repeat (rewrite ?isna_any_fill_cat_ne, ?isna_any_fill_num in * by done).
  split.
  - rewrite !map_map. apply map_ext. intros r. by destruct r.
  - intros c. destruct c; assumption.
Qed.

(** ** The frequency table and the mode *)

Lemma incr_keys (k k' : string) (t : list (string * nat)) :
  k' ∈ map fst (incr k t) <-> k' = k \/ k' ∈ map fst t.
Proof.
  induction t as [|[k0 n] t IH]; simpl.
  - rewrite list_elem_of_singleton, elem_of_nil. tauto.
  - destruct (String.eqb_spec k k0) as [->|Hne]; simpl.
    + rewrite !elem_of_cons. tauto.
    + rewrite !elem_of_cons, IH. tauto.
Qed.

Lemma incr_NoDup (k : string) (t : list (string * nat)) :
  NoDup (map fst t) -> NoDup (map fst (incr k t)).
Proof.
  induction t as [|[k0 n] t IH]; simpl; intros Hnd.
  - apply NoDup_singleton.
  - apply NoDup_cons in Hnd as [Hnotin Hnd].
    destruct (String.eqb_spec k k0) as [->|Hne]; simpl.
    + by apply NoDup_cons.
    + apply NoDup_cons. split; [|by apply IH].
      rewrite incr_keys. intros [->|H]; [done|]. by apply Hnotin.
Qed.

Lemma incr_entry (k k' : string) (n : nat) (t : list (string * nat)) :
  NoDup (map fst t) ->
  (k', n) ∈ incr k t ->
  (k' = k /\ ((exists n0, n = S n0 /\ (k, n0) ∈ t) \/ (n = 1%nat /\ k ∉ map fst t)))
  \/ (k' <> k /\ (k', n) ∈ t).
Proof.
  induction t as [|[k0 n0] t IH]; simpl; intros Hnd Hin.
  - apply list_elem_of_singleton in Hin as [= -> ->].
    left. split; [done|]. right. split; [done|]. apply not_elem_of_nil.
  - apply NoDup_cons in Hnd as [Hnotin Hnd].
    destruct (String.eqb_spec k k0) as [->|Hne].
    + apply elem_of_cons in Hin as [[= -> ->]|Hin].
      * left. split; [done|]. left. exists n0. split; [done|]. apply list_elem_of_here.
      * right. split.
        -- intros ->. apply Hnotin. apply list_elem_of_fmap. by exists (k0, n).
        -- by apply list_elem_of_further.
    + apply elem_of_cons in Hin as [[= -> ->]|Hin].
      * right. split; [done|]. apply list_elem_of_here.
      * destruct (IH Hnd Hin) as [[-> [(n1 & -> & H1)|[-> H1]]]|[Hk H1]].
        -- left. split; [done|]. left. exists n1. split; [done|].
           by apply list_elem_of_further.
        -- left. split; [done|]. right. split; [done|].
           simpl. rewrite not_elem_of_cons. done.
        -- right. split; [done|]. by apply list_elem_of_further.
Qed.

Lemma count_str_snoc (v x : string) (xs : list string) :
  count_str v (xs ++ [x]) = (count_str v xs + (if String.eqb v x then 1 else 0))%nat.
Proof.
  unfold count_str. rewrite List.filter_app, length_app. simpl.
  by destruct (String.eqb v x).
Qed.

Lemma count_str_pos (v : string) (xs : list string) :
  v ∈ xs <-> (0 < count_str v xs)%nat.
Proof.
  unfold count_str. induction xs as [|x xs IH]; simpl.
  - rewrite elem_of_nil. lia.
  - rewrite elem_of_cons, IH.
    destruct (String.eqb_spec v x) as [->|Hne]; simpl.
    + split; intros _; [lia|by left].
    + split; [intros [?|?]; [done|lia]|auto].
Qed.

(** The table after a pass over [xs]: distinct keys, the keys are the values
    of [xs], and each count is the number of occurrences. *)
Lemma value_count_spec (xs : list string) :
  NoDup (map fst (value_count xs)) /\
  (forall k, k ∈ map fst (value_count xs) <-> k ∈ xs) /\
  (forall k n, (k, n) ∈ value_count xs -> n = count_str k xs).
Proof.
  unfold value_count. induction xs as [|x xs IH] using rev_ind.
  - simpl. split; [apply NoDup_nil_2|]. split; [done|].
    intros k n H. by apply elem_of_nil in H.
  - rewrite fold_left_app. simpl.
    destruct IH as (Hnd & Hkeys & Hcnt).
    split; [by apply incr_NoDup|]. split.
    + intros k. rewrite incr_keys, elem_of_app, list_elem_of_singleton, Hkeys. tauto.
    + intros k n Hin. rewrite count_str_snoc.
      destruct (incr_entry _ _ _ _ Hnd Hin) as [[-> [(n0 & -> & H0)|[-> H0]]]|[Hne H0]].
      * rewrite String.eqb_refl. rewrite (Hcnt _ _ H0). lia.
      * rewrite String.eqb_refl.
        assert (count_str x xs = 0)%nat; [|lia].
        destruct (count_str x xs) eqn:E; [done|].
        exfalso. apply H0, Hkeys, count_str_pos. lia.
      * destruct (String.eqb_spec k x); [done|]. rewrite (Hcnt _ _ H0). lia.
Qed.

Lemma value_count_entry (xs : list string) (v : string) :
  v ∈ xs -> (v, count_str v xs) ∈ value_count xs.
Proof.
  intros Hv. destruct (value_count_spec xs) as (_ & Hkeys & Hcnt).
  apply Hkeys in Hv. apply list_elem_of_fmap in Hv as ([k n] & -> & Hin).
  simpl. by rewrite <- (Hcnt _ _ Hin).
Qed.

(** The first mode is a most frequent value, and the least such in string
    order. *)
Lemma mode_head_least (s : list (option string)) (m : string) :
  mode s !! 0%nat = Some m -> least_mode m (present s).
Proof.
  unfold mode. set (xs := present s). set (t := value_count xs).
  set (mx := max_list (map snd t)).
  set (modes := map fst (List.filter (fun p : string * nat => (p.2 =? mx)%nat) t)).
  intros Hm.
  pose proof (quicksort_perm String.ltb string_ltb_asym string_le_of_trans modes) as Hperm.
  pose proof (quicksort_sorted String.ltb string_ltb_asym string_le_of_trans modes) as Hsorted.
  destruct (value_count_spec xs) as (Hnd & Hkeys & Hcnt). fold t in Hnd, Hkeys, Hcnt.
  assert (Hmodes : forall v, v ∈ modes <-> v ∈ xs /\ count_str v xs = mx).
  { intros v. unfold modes. rewrite list_elem_of_fmap. split.
    - intros ([k n] & -> & Hin). apply list_elem_of_In, filter_In in Hin as [Hin Hn].
      apply list_elem_of_In in Hin. simpl in *. apply Nat.eqb_eq in Hn.
      split.
      + apply Hkeys, list_elem_of_fmap. by exists (k, n).
      + by rewrite <- (Hcnt _ _ Hin).
    - intros [Hv Hc]. exists (v, count_str v xs). split; [done|].
      apply list_elem_of_In, filter_In. split.
      + apply list_elem_of_In. by apply value_count_entry.
      + simpl. by apply Nat.eqb_eq. }
  assert (Hin : m ∈ modes).
  { rewrite <- Hperm. by eapply list_elem_of_lookup_2. }
  apply Hmodes in Hin as [Hmx Hmc].
  split; [done|]. split.
  - intros v Hv. rewrite Hmc. unfold mx. apply max_list_elem_of_le.
    apply list_elem_of_fmap. exists (v, count_str v xs). split; [done|].
    by apply value_count_entry.
  - intros v Hv Hc.
    assert (Hvs : v ∈ quicksort_ String.ltb modes).
    { rewrite Hperm. apply Hmodes. split; [done|]. by rewrite Hc. }
    destruct (quicksort_ String.ltb modes) as [|m0 rest]; [done|].
    simpl in Hm. injection Hm as ->.
    apply elem_of_cons in Hvs as [->|Hvs].
    + destruct (String.ltb m m) eqn:E; [|done]. by rewrite (string_ltb_asym _ _ E) in E.
    + inversion Hsorted as [|? ? _ Hall]; subst.
      rewrite Forall_forall in Hall. by apply Hall.
Qed.


(** ** The derived columns *)

Lemma derive_eq (df : list Row) : derive df = map derive_row df.
Proof. unfold derive, add_band, add_average. by rewrite map_map. Qed.

Lemma build_with_inv (kind : kernel) (loaded : list Row) (d : Dashboard) :
  build_with kind loaded = Ok d ->
  exists filled,
    fill_missing loaded = Ok filled /\
    df d = derive filled /\
    missing_counts d = missing_counts_of_with kind loaded /\
    duplicate_count d = duplicate_count_of loaded /\
    sorted_by_avg_desc d
      = head 20 (sort_values_with kind Qlt_bool Average false (df d)) /\
    sorted_by_math_desc d
      = head 20 (sort_values_with kind Qlt_bool
                   (fun r => num_get Math (d_row r)) false (df d)) /\
    by_gender d = group_means Gender (df d) /\
    by_race d = group_means Race_Ethnicity (df d) /\
    by_prep d = group_means Test_Prep (df d) /\
    band_counts d = band_counts_of_with kind (df d) /\
    Cleaned_Data d = dataframe_to_rows (df d) /\
    Summary d =
      write_title "Data Quality"
      ++ [[CStr "Duplicate Rows"; CInt (Z.of_nat (duplicate_count d))]; []]
      ++ missing_block (missing_counts d)
      ++ group_block "Average Scores by Gender" "Gender" (by_gender d)
      ++ group_block "Average Scores by Race/Ethnicity" "Race_Ethnicity" (by_race d)
      ++ group_block "Scores by Test Preparation" "Test_Prep" (by_prep d)
      ++ top_block "Top 20 by Average" (sorted_by_avg_desc d)
      ++ top_block "Top 20 by Math" (sorted_by_math_desc d).
Proof.
  unfold build_with. destruct (fill_missing loaded) as [filled|] eqn:E; [|done].
  cbn [bind]. intros H.
  apply (f_equal (fun r => match r with Ok x => x | Err _ => d end)) in H.
  cbv beta iota in H. subst d. exists filled.
  repeat (split; [reflexivity|]). reflexivity.
Qed.

Lemma build_inv (loaded : list Row) (d : Dashboard) :
  build loaded = Ok d ->
  exists filled,
    fill_missing loaded = Ok filled /\
    df d = derive filled /\
    missing_counts d = missing_counts_of loaded /\
    duplicate_count d = duplicate_count_of loaded /\
    sorted_by_avg_desc d = head 20 (sort_values Qlt_bool Average false (derive filled)) /\
    sorted_by_math_desc d
      = head 20 (sort_values Qlt_bool (fun r => num_get Math (d_row r)) false (derive filled)) /\
    band_counts d = band_counts_of (derive filled) /\
    Cleaned_Data d = dataframe_to_rows (derive filled) /\
    exists rest,
      Summary d =
        write_title "Data Quality"
        ++ [[CStr "Duplicate Rows"; CInt (Z.of_nat (duplicate_count_of loaded))]; []]
        ++ missing_block (missing_counts_of loaded) ++ rest.
Proof.
  intros Hb. apply build_with_inv in Hb
    as (filled & Hfill & Hdf & Hmc & Hdup & Havg & Hmath & _ & _ & _ & Hbc & Hws & Hsum).
  exists filled. rewrite Hsum, Hmc, Hdup, <- Hdf.
  repeat (split; [done|]). eexists. reflexivity.
Qed.


(** *** Doubles *)



Lemma pow2_lt (a b : Z) : (a < b)%Z -> pow2 a < pow2 b.
Proof. intros H. apply Qpower_lt_compat_l; [exact H|]. reflexivity. Qed.
























(** *** The means *)


Lemma mean_is_Some (s : list (option Q)) (x : Q) :
  Some x ∈ s -> exists m, mean s = Some m.
Proof.
  intros Hx. unfold mean.
  assert (Hp : x ∈ present s).
  { unfold present. apply list_elem_of_omap. by exists (Some x). }
  destruct (present s); [by apply elem_of_nil in Hp|]. by eexists.
Qed.

Lemma mean_all_missing (s : list (option Q)) :
  (forall x, x ∈ s -> x = None) -> mean s = None.
Proof.
  intros H. unfold mean.
  assert (Hp : present s = []); [|by rewrite Hp].
  unfold present. induction s as [|x s IH]; [done|].
  rewrite (H x) by apply list_elem_of_here. csimpl.
  apply IH. intros y Hy. apply H. by apply list_elem_of_further.
Qed.



Lemma filled_with_num (mn : NumCol -> option Q) (mc : CatCol -> option string)
    (c : NumCol) (r : Row) :
  num_get c (filled_with mn mc r) = fillna (mn c) (num_get c r).
Proof. by destruct c. Qed.

Lemma filled_with_cat (mn : NumCol -> option Q) (mc : CatCol -> option string)
    (c : CatCol) (r : Row) :
  cat_get c (filled_with mn mc r) = fillna (mc c) (cat_get c r).
Proof. by destruct c. Qed.

(** A numeric column that holds a value on load has no missing cell after
    the fill. *)
Lemma filled_num_present (df df' : list Row) (c : NumCol) (r0 r' : Row) :
  fill_missing df = Ok df' ->
  r0 ∈ df -> num_get c r0 <> None ->
  r' ∈ df' -> num_get c r' <> None.
Proof.
  intros Hfill Hr0 Hv Hr'.
  apply fill_missing_spec in Hfill as [-> _].
  apply list_elem_of_fmap in Hr' as (r & -> & Hr).
  rewrite filled_with_num.
  destruct (num_get c r) eqn:E; simpl; [done|].
  destruct (num_get c r0) as [x|] eqn:E0; [|done].
  destruct (mean_is_Some (map (num_get c) df) x) as [m Hm].
  { apply list_elem_of_fmap. by exists r0. }
  unfold col_mean. by rewrite Hm.
Qed.

Lemma filled_cat_present (df df' : list Row) (c : CatCol) (r' : Row) :
  fill_missing df = Ok df' -> r' ∈ df' -> cat_get c r' <> None.
Proof.
  intros Hfill Hr'.
  apply fill_missing_spec in Hfill as [-> Hmode].
  apply list_elem_of_fmap in Hr' as (r & -> & Hr).
  rewrite filled_with_cat.
  destruct (cat_get c r) eqn:E; simpl; [done|].
  destruct (Hmode c) as [m Hm]; [|by rewrite Hm].
  destruct (isna_any (map (cat_get c) df)) eqn:Ea; [done|].
  exfalso. apply (isna_any_false _ Ea (cat_get c r)); [|done].
  apply list_elem_of_fmap. by exists r.
Qed.

(** ** Performance bands *)

(** C1. The band of a row is fixed by the four intervals (-inf,50],
    (50,70], (70,85], (85,inf): a row with an Average has a band, its
    Average lies in the interval of that band and in no other; a row with
    Average 85 is Good, with 85.01 (the double of that name) Excellent, and
    with 50 Low.  The intervals part the whole line: [cut] gives every
    number the one band whose interval holds it. *)
Theorem band_partition (kind : kernel) (loaded : list Row) (d : Dashboard) :
  build_with kind loaded = Ok d ->
  (forall (r : DRow) (q : Q), r ∈ df d -> Average r = Some q ->
     (exists b : Band,
        Performance_Band r = Some b /\ in_band b q /\
        forall b' : Band, in_band b' q -> b' = b) /\
     (q == 85 -> Performance_Band r = Some Good) /\
     (q == float64 (8501 # 100) -> Performance_Band r = Some Excellent) /\
     (q == 50 -> Performance_Band r = Some Low)) /\
  (forall q : Q, exists b : Band,
     cut (Some q) = Some b /\ in_band b q /\
     forall b' : Band, in_band b' q -> b' = b).
Proof.
  intros Hb.
  assert (Hcut : forall q : Q, exists b : Band,
     cut (Some q) = Some b /\ in_band b q /\
     forall b' : Band, in_band b' q -> b' = b).
  { intros q. destruct (cut (Some q)) as [b|] eqn:E.
    - exists b. split; [done|]. split; [by apply cut_in_band|].
      intros b' Hb'. apply cut_in_band in Hb'. congruence.
    - rewrite cut_cases in E. discriminate. }
  split; [|exact Hcut].
  apply build_with_inv in Hb as (filled & _ & Hdf & _).
  rewrite Hdf, derive_eq. intros r q Hr Hq.
  apply list_elem_of_fmap in Hr as (r0 & -> & _).
  assert (Hband : Performance_Band (derive_row r0) = cut (Some q)).
  { rewrite <- Hq. reflexivity. }
  rewrite Hband. split; [exact (Hcut q)|].
  set (x := float64 (8501 # 100)).
  assert (Hx : 85 < x) by (apply Qlt_bool_iff; vm_compute; reflexivity).
  clearbody x.
  split; [|split]; intros H; apply cut_in_band; simpl; lra.
Qed.

Lemma band_partition_sample :
  exists d : Dashboard,
    build_with (@quicksort_) band_edges = Ok d /\
    map Average (df d) = [Some 85; Some (float64 (8501 # 100)); Some 50] /\
    map Performance_Band (df d) = [Some Good; Some Excellent; Some Low] /\
    (forall (r : DRow) (q : Q), r ∈ df d -> Average r = Some q ->
       (exists b : Band,
          Performance_Band r = Some b /\ in_band b q /\
          forall b' : Band, in_band b' q -> b' = b) /\
       (q == 85 -> Performance_Band r = Some Good) /\
       (q == float64 (8501 # 100) -> Performance_Band r = Some Excellent) /\
       (q == 50 -> Performance_Band r = Some Low)) /\
    (forall q : Q, exists b : Band,
       cut (Some q) = Some b /\ in_band b q /\
       forall b' : Band, in_band b' q -> b' = b).
Proof.
  eexists. split; [vm_compute; reflexivity|].
  split; [vm_compute; reflexivity|]. split; [vm_compute; reflexivity|].
  apply (band_partition (@quicksort_) band_edges). vm_compute. reflexivity.
Defined.

(** ** Cleaning *)




(** ** Average *)




(** The operations are those of doubles and not of the real numbers: with
    the scores 50, 50 and the double 50.015 the mean in doubles is below
    50.005 and the Average is 50, while the exact mean of the same three
    scores is above 50.005 and rounds to 50.01. *)
Lemma average_rounds_in_doubles :
  option_map round2
    (row_mean (student (Some "female") (Some 50) (Some 50)
                 (Some (float64 (50015 # 1000)))))
  = Some 50 /\
  rint ((50 + 50 + float64 (50015 # 1000)) / 3 * 100) = 5001%Z.
Proof. split; vm_compute; reflexivity. Qed.




(** ** Mode imputation *)

(** C5, as the code has it. In a categorical column with a missing value,
    every missing value is replaced by a most frequent present value of the
    column, the least in string order among the most frequent ones, and the
    present values stay. *)
Theorem mode_fill_least (loaded filled : list Row) (c : CatCol) :
  fill_missing loaded = Ok filled ->
  isna_any (map (cat_get c) loaded) = true ->
  exists m : string,
    least_mode m (present (map (cat_get c) loaded)) /\
    length filled = length loaded /\
    forall (i : nat) (r : Row), loaded !! i = Some r ->
      exists r' : Row, filled !! i = Some r' /\
        cat_get c r' = Some (default m (cat_get c r)).
Proof.
  intros Hfill Hna.
  apply fill_missing_spec in Hfill as [-> Hmode].
  destruct (Hmode c Hna) as [m Hm]. exists m.
  split; [by apply mode_head_least|]. split; [by rewrite length_map|].
  intros i r Hr. exists (filled_with (col_mean loaded) (col_mode loaded) r).
  split.
  - change (map ?f loaded) with (f <$> loaded). by rewrite list_lookup_fmap, Hr.
  - rewrite filled_with_cat, Hm. by destruct (cat_get c r).
Qed.

Lemma mode_fill_least_sample :
  exists filled : list Row,
    fill_missing gender_tie = Ok filled /\
    exists m : string,
      least_mode m (present (map (cat_get Gender) gender_tie)) /\
      length filled = length gender_tie /\
      forall (i : nat) (r : Row), gender_tie !! i = Some r ->
        exists r' : Row, filled !! i = Some r' /\
          cat_get Gender r' = Some (default m (cat_get Gender r)).
Proof.
  eexists. split; [vm_compute; reflexivity|].
  apply (mode_fill_least gender_tie); vm_compute; reflexivity.
Defined.

(** C5 as stated fails on a tie: "male" is met first and as often as
    "female", and the missing gender is filled with "female". *)
Lemma mode_tie_not_first_met :
  first_mode (map (cat_get Gender) gender_tie) = Some "male" /\
  option_map (map (cat_get Gender)) (cleaned_of gender_tie)
  = Some [Some "male"; Some "female"; Some "female"].
Proof. split; vm_compute; reflexivity. Qed.

(** ** Row preservation *)

(** C9. The run keeps every row: duplicates are counted on the loaded table,
    and the cleaned table and the Cleaned_Data sheet below its header have
    one row per loaded row, in the loaded order, each with the loaded values
    in the cells that were present; rows that were equal on load stay equal,
    none is dropped. *)
Theorem rows_preserved (loaded : list Row) (d : Dashboard) :
  build loaded = Ok d ->
  duplicate_count d = duplicate_count_of loaded /\
  length (df d) = length loaded /\
  Cleaned_Data d = columns :: map row_values (df d) /\
  (forall (i : nat) (r : Row), loaded !! i = Some r ->
     exists r' : DRow,
       df d !! i = Some r' /\
       Cleaned_Data d !! S i = Some (row_values r') /\
       (forall (c : CatCol) (v : string),
          cat_get c r = Some v -> cat_get c (d_row r') = Some v) /\
       (forall (c : NumCol) (v : Q),
          num_get c r = Some v -> num_get c (d_row r') = Some v)) /\
  (forall i j : nat, loaded !! i = loaded !! j -> df d !! i = df d !! j).
Proof.
  intros Hb. apply build_inv in Hb as (filled & Hfill & Hdf & _ & Hdup & _ & _ & _ & Hws & _).
  apply fill_missing_spec in Hfill as [-> _].
  rewrite Hws, Hdf, derive_eq. unfold dataframe_to_rows.
  split; [done|]. split; [by rewrite !length_map|]. split; [done|]. split.
  - intros i r Hr.
    exists (derive_row (filled_with (col_mean loaded) (col_mode loaded) r)).
    assert (Hi : map derive_row (map (filled_with (col_mean loaded) (col_mode loaded)) loaded) !! i
                 = Some (derive_row (filled_with (col_mean loaded) (col_mode loaded) r))).
    { change (map ?f ?l) with (f <$> l). by rewrite !list_lookup_fmap, Hr. }
    split; [exact Hi|]. split.
    + simpl. change (map row_values ?l) with (row_values <$> l).
      rewrite list_lookup_fmap. by rewrite Hi.
    + simpl. split.
      * intros c v Hv. by rewrite filled_with_cat, Hv.
      * intros c v Hv. by rewrite filled_with_num, Hv.
  - intros i j Hij. change (map ?f ?l) with (f <$> l).
    by rewrite !list_lookup_fmap, Hij.
Qed.

Lemma rows_preserved_sample :
  exists d : Dashboard,
    build sample = Ok d /\
    duplicate_count d = duplicate_count_of sample /\
    length (df d) = length sample /\
    Cleaned_Data d = columns :: map row_values (df d) /\
    (forall (i : nat) (r : Row), sample !! i = Some r ->
       exists r' : DRow,
         df d !! i = Some r' /\
         Cleaned_Data d !! S i = Some (row_values r') /\
         (forall (c : CatCol) (v : string),
            cat_get c r = Some v -> cat_get c (d_row r') = Some v) /\
         (forall (c : NumCol) (v : Q),
            num_get c r = Some v -> num_get c (d_row r') = Some v)) /\
    (forall i j : nat, sample !! i = sample !! j -> df d !! i = df d !! j).
Proof.
  eexists. split; [vm_compute; reflexivity|].
  apply (rows_preserved sample). vm_compute. reflexivity.
Defined.

(** ** Missing-value counts *)

Lemma missing_counts_perm (loaded : list Row) :
  missing_counts_of loaded ≡ₚ isna_sums loaded.
Proof.
  unfold missing_counts_of.
  apply (sort_values_perm Nat.ltb _ nat_ltb_asym nat_le_of_trans).
Qed.

(** C10. The missing-value rows of the Summary sheet carry, for every column,
    the number of missing values of the table as loaded, whatever the fill
    does afterwards; so the sheet reports a missing gender and a missing math
    score for the sample while its Cleaned_Data sheet has no missing cell. *)
Theorem missing_counts_before_fill :
  (forall (loaded : list Row) (d : Dashboard),
     build loaded = Ok d ->
     missing_counts d ≡ₚ isna_sums loaded /\
     forall (name : string) (n : nat),
       (name, n) ∈ isna_sums loaded ->
       [CStr name; CInt (Z.of_nat n)] ∈ Summary d)
  /\ (exists d : Dashboard,
        build sample = Ok d /\
        [CStr "Gender"; CInt 1] ∈ Summary d /\
        [CStr "Math"; CInt 1] ∈ Summary d /\
        sheet_complete (Cleaned_Data d) = true).
Proof.
  split.
  - intros loaded d Hb.
    apply build_inv in Hb as (filled & _ & _ & Hmc & _ & _ & _ & _ & _ & rest & Hs).
    rewrite Hmc, Hs. split; [apply missing_counts_perm|].
    intros name n Hin.
    rewrite <- missing_counts_perm in Hin.
    rewrite !elem_of_app. right. right. left.
    unfold missing_block. rewrite !elem_of_app. right. left.
    apply list_elem_of_fmap. by exists (name, n).
  - eexists. split; [vm_compute; reflexivity|].
    split; [|split]; [| |vm_compute; reflexivity].
    + apply list_elem_of_lookup. by exists 6%nat.
    + apply list_elem_of_lookup. by exists 7%nat.
Qed.

Lemma missing_counts_before_fill_sample :
  exists d : Dashboard,
    build sample = Ok d /\
    missing_counts d ≡ₚ isna_sums sample /\
    forall (name : string) (n : nat),
      (name, n) ∈ isna_sums sample ->
      [CStr name; CInt (Z.of_nat n)] ∈ Summary d.
Proof.
  eexists. split; [vm_compute; reflexivity|].
  apply (proj1 missing_counts_before_fill sample). vm_compute. reflexivity.
Defined.

(** ** Band counts *)

Local Close Scope Q_scope.

Lemma StronglySorted_fmap_inv {A B : Type} (f : A -> B)
    (R1 : relation A) (R2 : relation B) (l : list A) :
  (forall x y, R2 (f x) (f y) -> R1 x y) ->
  StronglySorted R2 (f <$> l) -> StronglySorted R1 l.
Proof.
  intros H. induction l as [|x l IH]; intros Hs; [constructor|].
  rewrite fmap_cons in Hs. inversion Hs as [|? ? Hs' Hall]; subst.
  constructor; [by apply IH|].
  rewrite Forall_fmap in Hall. eapply Forall_impl; [exact Hall|].
  intros y Hy. by apply H.
Qed.







Local Open Scope Q_scope.








(** ** Top-20 views *)

Lemma head_sort_values {R : Type} (by_ : R -> option Q) (n : nat) (df : list R) :
  length (head n (sort_values Qlt_bool by_ false df)) = Nat.min n (length df) /\
  exists full : list R,
    full ≡ₚ df /\
    StronglySorted (key_le Qlt_bool false) (map by_ full) /\
    head n (sort_values Qlt_bool by_ false df) = take n full.
Proof.
  pose proof (sort_values_perm Qlt_bool by_ Qlt_bool_asym Q_le_of_trans false df) as Hp.
  split.
  - unfold head. rewrite length_take. by rewrite Hp.
  - exists (sort_values Qlt_bool by_ false df). split; [done|]. split; [|done].
    apply (sort_values_sorted Qlt_bool by_ Qlt_bool_asym Q_le_of_trans).
Qed.

Lemma head_sort_values_with (kind : kernel) {R : Type} (by_ : R -> option Q)
    (n : nat) (df : list R) :
  sorts kind ->
  length (head n (sort_values_with kind Qlt_bool by_ false df))
  = Nat.min n (length df) /\
  exists full : list R,
    full ≡ₚ df /\
    StronglySorted (key_le Qlt_bool false) (map by_ full) /\
    head n (sort_values_with kind Qlt_bool by_ false df) = take n full.
Proof.
  intros Hk.
  pose proof (sort_values_with_perm kind Qlt_bool by_ Hk Qlt_bool_asym
                Q_le_of_trans false df) as Hp.
  split.
  - unfold head. rewrite length_take. by rewrite Hp.
  - exists (sort_values_with kind Qlt_bool by_ false df).
    split; [done|]. split; [|done].
    apply (sort_values_with_sorted kind Qlt_bool by_ Hk Qlt_bool_asym
             Q_le_of_trans).
Qed.

(** C4, as the code has it. Whatever code numpy sorts with, each top-20 view
    has min(20, row count) rows and is the first 20 rows of a rearrangement
    of the whole table that is sorted descending by the column, rows
    without a value last.  Where rows of equal value stand is left to that
    code, and need not be the order of the table. *)
Theorem top_views_sorted_prefix (kind : kernel) (loaded : list Row)
    (d : Dashboard) :
  sorts kind ->
  build_with kind loaded = Ok d ->
  (length (sorted_by_avg_desc d) = Nat.min 20 (length loaded) /\
   exists full : list DRow,
     full ≡ₚ df d /\
     StronglySorted (key_le Qlt_bool false) (map Average full) /\
     sorted_by_avg_desc d = take 20 full) /\
  (length (sorted_by_math_desc d) = Nat.min 20 (length loaded) /\
   exists full : list DRow,
     full ≡ₚ df d /\
     StronglySorted (key_le Qlt_bool false)
       (map (fun r => num_get Math (d_row r)) full) /\
     sorted_by_math_desc d = take 20 full).
Proof.
  intros Hk Hb.
  apply build_with_inv in Hb as (filled & Hfill & Hdf & _ & _ & Havg & Hmath & _).
  assert (Hlen : length (df d) = length loaded).
  { rewrite Hdf. apply fill_missing_spec in Hfill as [-> _].
    by rewrite derive_eq, !length_map. }
  rewrite Havg, Hmath, <- Hlen.
  split; by apply head_sort_values_with.
Qed.

(** On twenty-two students, with numpy's portable sort: both views hold
    twenty rows. *)
Lemma top_views_sorted_prefix_sample :
  exists d : Dashboard,
    build_with (@quicksort_) class_of_22 = Ok d /\
    length (sorted_by_avg_desc d) = 20%nat /\
    (length (sorted_by_avg_desc d) = Nat.min 20 (length class_of_22) /\
     exists full : list DRow,
       full ≡ₚ df d /\
       StronglySorted (key_le Qlt_bool false) (map Average full) /\
       sorted_by_avg_desc d = take 20 full) /\
    (length (sorted_by_math_desc d) = Nat.min 20 (length class_of_22) /\
     exists full : list DRow,
       full ≡ₚ df d /\
       StronglySorted (key_le Qlt_bool false)
         (map (fun r => num_get Math (d_row r)) full) /\
       sorted_by_math_desc d = take 20 full).
Proof.
  eexists. split; [vm_compute; reflexivity|]. split; [vm_compute; reflexivity|].
  apply (top_views_sorted_prefix (@quicksort_) class_of_22 _ quicksort_sorts).
  vm_compute. reflexivity.
Defined.

(** C4 as stated fails on ties where numpy sorts with its portable code
    [quicksort_] (no vectorised sort dispatched): of eighteen students with
    the same math score, named by their reading scores 0 to 17 in table
    order, the view by math lists 0, 1, 16, 15, ..., 2, 17, while a stable
    descending sort keeps 0, 1, 2, ..., 17. *)
Lemma top_math_ties_reordered :
  option_map
    (fun d =>
       (map reading_of (sorted_by_math_desc d),
        map reading_of
          (head 20 (stable_sort_desc (fun r => num_get Math (d_row r)) (df d)))))
    (dashboard_with (@quicksort_) tie_table)
  = Some ([0; 1; 16; 15; 14; 13; 12; 11; 10; 9; 8; 7; 6; 5; 4; 3; 2; 17]%Z,
          [0; 1; 2; 3; 4; 5; 6; 7; 8; 9; 10; 11; 12; 13; 14; 15; 16; 17]%Z).
Proof. vm_compute. reflexivity. Qed.

(** ** The two branches of the export *)
















(** * Further properties of the run *)

Local Close Scope Q_scope.

(** ** Data quality counts *)

Lemma isna_sum_le {A : Type} (s : list (option A)) : isna_sum s <= length s.
Proof.
  unfold isna_sum. induction s as [|x s IH]; simpl; [lia|].
  destruct (isna x); simpl; lia.
Qed.

Lemma isna_sums_bound (loaded : list Row) (p : string * nat) :
  p ∈ isna_sums loaded -> p.2 <= length loaded.
Proof.
  unfold isna_sums. rewrite elem_of_app. intros [H|H];
    apply list_elem_of_fmap in H as (c & -> & _); simpl.
  - rewrite <- (length_map (cat_get c) loaded). apply isna_sum_le.
  - rewrite <- (length_map (num_get c) loaded). apply isna_sum_le.
Qed.

(** X1. The table of missing values has its eight lines whatever the rows
    are, its counts never increase from one line to the next, and no count
    is above the number of loaded rows. *)
Theorem missing_counts_sorted (loaded : list Row) :
  length (missing_counts_of loaded) = 8 /\
  StronglySorted (fun p q : string * nat => q.2 <= p.2) (missing_counts_of loaded) /\
  forall p : string * nat, p ∈ missing_counts_of loaded -> p.2 <= length loaded.
Proof.
  split; [|split].
  - by rewrite missing_counts_perm.
  - unfold missing_counts_of.
    eapply StronglySorted_fmap_inv;
      [|apply (sort_values_sorted Nat.ltb (fun p : string * nat => Some p.2)
                 nat_ltb_asym nat_le_of_trans false)].
    intros x y. simpl. unfold le_of. by rewrite Nat.ltb_ge.
  - intros p Hp. rewrite missing_counts_perm in Hp. by apply isna_sums_bound.
Qed.

(** ** Duplicates *)

Lemma opt_eqb_sym {A : Type} (eqb : A -> A -> bool) (x y : option A) :
  (forall a b, eqb a b = true -> eqb b a = true) ->
  opt_eqb eqb x y = true -> opt_eqb eqb y x = true.
Proof. intros H. destruct x, y; simpl; auto. Qed.

Lemma opt_eqb_trans {A : Type} (eqb : A -> A -> bool) (x y z : option A) :
  (forall a b c, eqb a b = true -> eqb b c = true -> eqb a c = true) ->
  opt_eqb eqb x y = true -> opt_eqb eqb y z = true -> opt_eqb eqb x z = true.
Proof. intros H. destruct x, y, z; simpl; eauto; congruence. Qed.

Lemma string_eqb_sym (a b : string) : String.eqb a b = true -> String.eqb b a = true.
Proof. rewrite !String.eqb_eq. congruence. Qed.

Lemma string_eqb_trans (a b c : string) :
  String.eqb a b = true -> String.eqb b c = true -> String.eqb a c = true.
Proof. rewrite !String.eqb_eq. congruence. Qed.

Lemma row_eqb_sym (r1 r2 : Row) : row_eqb r1 r2 = true -> row_eqb r2 r1 = true.
Proof.
  unfold row_eqb, cat_cols, num_cols. simpl. rewrite !andb_true_iff.
  intros H. repeat match goal with H : _ /\ _ |- _ => destruct H end.
  repeat split;
    first [ by apply (opt_eqb_sym _ _ _ string_eqb_sym)
          | by apply (opt_eqb_sym _ _ _ Qeq_bool_sym) ].
Qed.

Lemma row_eqb_trans (r1 r2 r3 : Row) :
  row_eqb r1 r2 = true -> row_eqb r2 r3 = true -> row_eqb r1 r3 = true.
Proof.
  unfold row_eqb, cat_cols, num_cols. simpl. rewrite !andb_true_iff.
  intros H1 H2. repeat match goal with H : _ /\ _ |- _ => destruct H end.
  repeat split;
    first [ by eapply (opt_eqb_trans _ _ _ _ string_eqb_trans)
          | by eapply (opt_eqb_trans _ _ _ _ Qeq_bool_trans) ].
Qed.

Lemma row_eqb_refl (r : Row) : row_eqb r r = true.
Proof.
  unfold row_eqb, cat_cols, num_cols. simpl. rewrite !andb_true_iff.
  destruct r as [g ra p l t m rd w]; simpl.
  repeat split;
    first [ by destruct g | by destruct ra | by destruct p | by destruct l
          | by destruct t | idtac ];
    try (match goal with |- opt_eqb _ ?x ?x = true => destruct x; simpl; [apply String.eqb_refl|done] end);
    try (match goal with |- opt_eqb _ ?x ?x = true => destruct x; simpl; [apply Qeq_bool_refl|done] end).
Qed.

Lemma row_eqb_comm (r1 r2 : Row) : row_eqb r1 r2 = row_eqb r2 r1.
Proof.
  destruct (row_eqb r1 r2) eqn:E1, (row_eqb r2 r1) eqn:E2; try done.
  - by rewrite (row_eqb_sym _ _ E1) in E2.
  - by rewrite (row_eqb_sym _ _ E2) in E1.
Qed.

Lemma seen_equal_rows (x y : Row) (seen : list Row) :
  row_eqb x y = true -> existsb (row_eqb x) seen = existsb (row_eqb y) seen.
Proof.
  intros Hxy. induction seen as [|s seen IH]; [done|]. simpl. rewrite IH. f_equal.
  destruct (row_eqb x s) eqn:E1, (row_eqb y s) eqn:E2; try done.
  - by rewrite (row_eqb_trans y x s (row_eqb_sym _ _ Hxy) E1) in E2.
  - by rewrite (row_eqb_trans x y s Hxy E2) in E1.
Qed.

Lemma duplicated_seen_ext (df : list Row) : forall seen seen' : list Row,
  (forall r, existsb (row_eqb r) seen = existsb (row_eqb r) seen') ->
  duplicated seen df = duplicated seen' df.
Proof.
  induction df as [|x df IH]; intros seen seen' H; [done|]. simpl.
  rewrite (H x). f_equal. apply IH. intros r. simpl. by rewrite (H r).
Qed.

Lemma duplicated_perm (df df' : list Row) :
  df ≡ₚ df' -> forall seen seen' : list Row,
  (forall r, existsb (row_eqb r) seen = existsb (row_eqb r) seen') ->
  length (List.filter id (duplicated seen df))
  = length (List.filter id (duplicated seen' df')).
Proof.
  induction 1 as [|x l l' Hp IH|x y l|l1 l2 l3 H1 IH1 H2 IH2]; intros seen seen' H.
  - done.
  - simpl. rewrite (H x).
    assert (Hrest : length (List.filter id (duplicated (x :: seen) l))
                  = length (List.filter id (duplicated (x :: seen') l'))).
    { apply IH. intros r. simpl. by rewrite (H r). }
    destruct (existsb (row_eqb x) seen'); simpl; by rewrite Hrest.
  - simpl.
    rewrite (duplicated_seen_ext l (x :: y :: seen) (y :: x :: seen')).
    2:{ intros r. simpl. rewrite (H r).
        destruct (row_eqb r x), (row_eqb r y); done. }
    rewrite <- (H x), <- (H y), (row_eqb_comm x y).
    destruct (row_eqb y x) eqn:Exy.
    + rewrite (seen_equal_rows y x seen Exy). simpl.
      destruct (existsb (row_eqb x) seen); simpl; done.
    + simpl.
      destruct (existsb (row_eqb y) seen), (existsb (row_eqb x) seen); simpl; done.
  - rewrite (IH1 seen seen' H). by apply IH2.
Qed.

(** X2. The number of duplicate rows does not depend on the order of the
    rows of the file. *)
Theorem duplicate_count_perm (df df' : list Row) :
  df ≡ₚ df' -> duplicate_count_of df = duplicate_count_of df'.
Proof.
  intros Hp. unfold duplicate_count_of. by apply duplicated_perm.
Qed.

Lemma duplicated_length (df : list Row) : forall seen : list Row,
  length (duplicated seen df) = length df.
Proof.
  induction df as [|x df IH]; intros seen; [done|]. simpl. by rewrite IH.
Qed.

Lemma filter_length_le {A : Type} (P : A -> bool) (l : list A) :
  length (List.filter P l) <= length l.
Proof.
  induction l as [|x l IH]; simpl; [lia|]. destruct (P x); simpl; lia.
Qed.

Lemma no_duplicates_iff (df : list Row) : forall seen : list Row,
  length (List.filter id (duplicated seen df)) = 0 <->
  forall (j : nat) (r : Row), df !! j = Some r ->
    existsb (row_eqb r) seen = false /\
    forall (i : nat) (r' : Row), i < j -> df !! i = Some r' -> row_eqb r r' = false.
Proof.
  induction df as [|x df IH]; intros seen.
  - simpl. split; [|done]. intros _ j r Hj. by rewrite lookup_nil in Hj.
  - simpl. destruct (existsb (row_eqb x) seen) eqn:Ex; simpl.
    + split; [lia|]. intros H. destruct (H 0 x eq_refl) as [H0 _]. congruence.
    + rewrite IH. split.
      * intros H [|j] r Hj; simpl in Hj.
        -- injection Hj as <-. split; [done|]. intros i r' Hi. lia.
        -- destruct (H j r Hj) as [Hs Hearlier]. simpl in Hs.
           apply orb_false_iff in Hs as [Hrx Hs]. split; [done|].
           intros [|i] r' Hi Hr'; simpl in Hr'.
           ++ by injection Hr' as <-.
           ++ apply (Hearlier i); [lia|done].
      * intros H j r Hj. destruct (H (S j) r Hj) as [Hs Hearlier]. split.
        -- simpl. rewrite Hs, orb_false_r. apply (Hearlier 0); [lia|done].
        -- intros i r' Hi Hr'. apply (Hearlier (S i)); [lia|done].
Qed.

(** X3. The count of duplicates is zero exactly when no row holds the values
    of an earlier row, and it stays below the number of rows. *)
Theorem duplicate_count_zero_iff (df : list Row) :
  (duplicate_count_of df = 0 <->
   forall (i j : nat) (ri rj : Row),
     i < j -> df !! i = Some ri -> df !! j = Some rj -> row_eqb rj ri = false) /\
  duplicate_count_of df <= length df - 1.
Proof.
  unfold duplicate_count_of. split.
  - rewrite no_duplicates_iff. split.
    + intros H i j ri rj Hij Hi Hj. destruct (H j rj Hj) as [_ He]. by apply (He i).
    + intros H j r Hj. split; [done|]. intros i r' Hi Hr'. by apply (H i j).
  - destruct df as [|x df]; [simpl; lia|]. simpl.
    pose proof (filter_length_le id (duplicated [x] df)) as Hle.
    rewrite duplicated_length in Hle. lia.
Qed.

Lemma duplicate_count_perm_sample :
  duplicate_count_of sample = duplicate_count_of (reverse sample) /\
  duplicate_count_of sample = 1.
Proof.
  split; [|vm_compute; reflexivity].
  apply (duplicate_count_perm sample (reverse sample)).
  symmetry. apply reverse_Permutation.
Defined.

(** ** When the fill fails, and what a second fill does *)

Lemma value_count_nil (xs : list string) : value_count xs = [] -> xs = [].
Proof.
  intros H. destruct xs as [|x xs]; [done|].
  destruct (value_count_spec (x :: xs)) as (_ & Hkeys & _).
  assert (Hx : x ∈ map fst (value_count (x :: xs))) by (apply Hkeys, list_elem_of_here).
  rewrite H in Hx. by apply elem_of_nil in Hx.
Qed.

Lemma mode_nil_iff (s : list (option string)) : mode s = [] <-> present s = [].
Proof.
  unfold mode. set (t := value_count (present s)).
  set (modes := map fst _).
  pose proof (quicksort_perm String.ltb string_ltb_asym string_le_of_trans modes) as Hp.
  split.
  - intros H. rewrite H in Hp. symmetry in Hp. apply Permutation_nil_r in Hp.
    apply value_count_nil. fold t.
    destruct t as [|p t'] eqn:Et; [done|]. exfalso.
    assert (Hmax : max_list (map snd (p :: t')) ∈ map snd (p :: t')).
    { apply max_list_elem_of. done. }
    apply list_elem_of_fmap in Hmax as (q & Hq & Hin).
    assert (Hm : q.1 ∈ modes).
    { unfold modes. apply list_elem_of_fmap. exists q. split; [done|].
      apply list_elem_of_In, filter_In. split; [by apply list_elem_of_In|].
      apply Nat.eqb_eq. by rewrite <- Hq. }
    rewrite Hp in Hm. by apply elem_of_nil in Hm.
  - intros H. apply Permutation_nil_r. rewrite Hp.
    unfold modes, t. by rewrite H.
Qed.





Lemma fill_row_num_missing (c : NumCol) (r : Row) :
  num_get c r = None -> fill_row_num c None r = r.
Proof.
  unfold fill_row_num. intros H. rewrite H. simpl.
  destruct c, r as [g ra p l t m rd w]; simpl in *; by subst.
Qed.

Lemma filled_num_absent (df df' : list Row) (c : NumCol) (r' : Row) :
  fill_missing df = Ok df' ->
  (forall r, r ∈ df -> num_get c r = None) ->
  r' ∈ df' -> num_get c r' = None.
Proof.
  intros Hfill Hnone Hr'.
  apply fill_missing_spec in Hfill as [-> _].
  apply list_elem_of_fmap in Hr' as (r & -> & Hr).
  rewrite filled_with_num, (Hnone r Hr). simpl.
  apply mean_all_missing. intros x Hx.
  apply list_elem_of_fmap in Hx as (r1 & -> & Hr1). by apply Hnone.
Qed.

Lemma isna_any_none {A : Type} (s : list (option A)) :
  (forall x, x ∈ s -> x <> None) -> isna_any s = false.
Proof.
  intros H. destruct (isna_any s) eqn:E; [|done].
  apply isna_any_true in E. exfalso. by apply (H None E).
Qed.

Lemma fill_missing_fixpoint (df : list Row) :
  (forall c : CatCol, isna_any (map (cat_get c) df) = false) ->
  (forall c : NumCol, fill_num df c = df) ->
  fill_missing df = Ok df.
Proof.
  intros Hc Hn. unfold fill_missing, num_cols, cat_cols. simpl.
  rewrite !Hn. unfold fill_cat. by repeat (rewrite Hc; simpl).
Qed.

(** X5. The fill is idempotent: on a table that it has filled, it changes
    nothing. *)
Theorem fill_missing_idempotent (loaded filled : list Row) :
  fill_missing loaded = Ok filled -> fill_missing filled = Ok filled.
Proof.
  intros Hfill. apply fill_missing_fixpoint.
  - intros c. apply isna_any_none. intros x Hx.
    apply list_elem_of_fmap in Hx as (r & -> & Hr).
    by apply (filled_cat_present loaded filled).
  - intros c. rewrite fill_num_eq.
    transitivity (map id filled); [|apply map_id].
    apply map_ext_in. intros r Hr. unfold id.
    apply list_elem_of_In in Hr.
    destruct (num_get c r) as [x|] eqn:Er.
    { apply fill_row_num_id. by rewrite Er. }
    assert (Hload : forall r0, r0 ∈ loaded -> num_get c r0 = None).
    { intros r0 Hr0. destruct (num_get c r0) as [x0|] eqn:E0; [|done].
      exfalso. apply (filled_num_present loaded filled c r0 r Hfill Hr0); [|done|done].
      by rewrite E0. }
    assert (Hmean : col_mean filled c = None).
    { apply mean_all_missing. intros x Hx.
      apply list_elem_of_fmap in Hx as (r1 & -> & Hr1).
      by apply (filled_num_absent loaded filled). }
    rewrite Hmean. by apply fill_row_num_missing.
Qed.

Lemma fill_missing_idempotent_sample :
  exists filled : list Row,
    fill_missing sample = Ok filled /\ fill_missing filled = Ok filled.
Proof.
  eexists. split; [vm_compute; reflexivity|].
  apply (fill_missing_idempotent sample). vm_compute. reflexivity.
Defined.

(** ** What the imputation keeps *)

Lemma present_fillna {A : Type} (m : A) (col : list (option A)) :
  present (map (fillna (Some m)) col) = map (default m) col.
Proof.
  unfold present. induction col as [|x col IH]; [done|].
  cbn [map]. csimpl. destruct x; simpl; by rewrite IH.
Qed.

Lemma filled_cat_column (loaded filled : list Row) (c : CatCol) :
  fill_missing loaded = Ok filled ->
  map (cat_get c) filled
  = map (fillna (col_mode loaded c)) (map (cat_get c) loaded).
Proof.
  intros Hfill. apply fill_missing_spec in Hfill as [-> _].
  rewrite !map_map. apply map_ext. intros r. apply filled_with_cat.
Qed.

(** X6. The fill of a numeric column puts the mean that the column has on
    load, as pandas computes it in doubles, in the place of every missing
    score and keeps the scores that are present. *)
Theorem mean_fill_value (loaded filled : list Row) (c : NumCol) :
  fill_missing loaded = Ok filled ->
  length filled = length loaded /\
  forall (i : nat) (r : Row), loaded !! i = Some r ->
    exists r' : Row,
      filled !! i = Some r' /\
      num_get c r' = match num_get c r with
                     | Some x => Some x
                     | None => col_mean loaded c
                     end.
Proof.
  intros Hfill. apply fill_missing_spec in Hfill as [-> _].
  split; [by rewrite length_map|].
  intros i r Hi. eexists. split.
  - change (map ?f ?l) with (f <$> l). rewrite list_lookup_fmap, Hi. reflexivity.
  - rewrite filled_with_num. by destruct (num_get c r).
Qed.

(** On six math scores 28, 5, 71, NaN, 17, 37 the missing one becomes the
    mean 31.6, after which the mean of the column is the double below
    31.6. *)
Lemma mean_fill_value_sample :
  exists filled : list Row,
    fill_missing six_scores = Ok filled /\
    col_mean six_scores Math = Some (float64 (316 # 10))%Q /\
    map (num_get Math) filled
    = [Some 28; Some 5; Some 71; Some (float64 (316 # 10)); Some 17; Some 37]%Q /\
    col_mean filled Math = Some (8894609264056729 # 281474976710656)%Q /\
    length filled = length six_scores /\
    forall (i : nat) (r : Row), six_scores !! i = Some r ->
      exists r' : Row,
        filled !! i = Some r' /\
        num_get Math r' = match num_get Math r with
                          | Some x => Some x
                          | None => col_mean six_scores Math
                          end.
Proof.
  eexists. split; [vm_compute; reflexivity|].
  split; [vm_compute; reflexivity|]. split; [vm_compute; reflexivity|].
  split; [vm_compute; reflexivity|].
  apply (mean_fill_value six_scores). vm_compute. reflexivity.
Defined.

Lemma count_str_fillna (v m : string) (col : list (option string)) :
  count_str v (map (default m) col)
  = count_str v (present col) + (if String.eqb v m then isna_sum col else 0).
Proof.
  unfold count_str, present, isna_sum. induction col as [|x col IH].
  - simpl. by destruct (String.eqb v m).
  - cbn [map]. csimpl. destruct x as [x|]; cbn [default id List.filter isna].
    + destruct (String.eqb v x); cbn [length]; rewrite IH; lia.
    + destruct (String.eqb v m); cbn [length]; rewrite IH; lia.
Qed.

Lemma string_ltb_irrefl (m : string) : String.ltb m m = false.
Proof.
  destruct (String.ltb m m) eqn:E; [|done]. by rewrite (string_ltb_asym _ _ E) in E.
Qed.

Lemma string_ltb_total (a b : string) :
  String.ltb a b = false -> String.ltb b a = false -> a = b.
Proof.
  unfold String.ltb. rewrite (String.compare_antisym b a).
  destruct (String.compare a b) eqn:E; simpl; try done.
  intros _ _. by apply String.compare_eq_iff.
Qed.

Lemma least_mode_unique (m m' : string) (xs : list string) :
  least_mode m xs -> least_mode m' xs -> m = m'.
Proof.
  intros (Hin & Hmax & Hleast) (Hin' & Hmax' & Hleast').
  pose proof (Hmax m' Hin'). pose proof (Hmax' m Hin).
  apply string_ltb_total.
  - apply Hleast'; [done|lia].
  - apply Hleast; [done|lia].
Qed.

(** X7. Filling the missing values of a categorical column with its mode
    leaves the mode of the column as it was. *)
Theorem mode_fill_keeps_mode (loaded filled : list Row) (c : CatCol) (m : string) :
  fill_missing loaded = Ok filled ->
  col_mode loaded c = Some m ->
  col_mode filled c = Some m.
Proof.
  intros Hfill Hm.
  assert (Hl : least_mode m (present (map (cat_get c) loaded)))
    by (by apply mode_head_least).
  unfold col_mode at 1.
  rewrite (filled_cat_column loaded filled c Hfill), Hm.
  set (col := map (cat_get c) loaded) in *.
  destruct Hl as (Hin & Hmax & Hleast).
  assert (Hcnt : forall v, count_str v (present (map (fillna (Some m)) col))
                 = count_str v (present col)
                   + (if String.eqb v m then isna_sum col else 0)).
  { intros v. rewrite present_fillna. apply count_str_fillna. }
  assert (Hl' : least_mode m (present (map (fillna (Some m)) col))).
  { split; [|split].
    - apply count_str_pos. rewrite Hcnt. apply count_str_pos in Hin. lia.
    - intros v Hv. rewrite !Hcnt, String.eqb_refl.
      destruct (String.eqb_spec v m) as [->|Hne]; [lia|].
      destruct (count_str v (present col)) eqn:Ec; [lia|].
      assert (Hvin : v ∈ present col) by (apply count_str_pos; lia).
      pose proof (Hmax v Hvin). lia.
    - intros v Hv. rewrite !Hcnt, String.eqb_refl.
      destruct (String.eqb_spec v m) as [->|Hne]; [intros _; apply string_ltb_irrefl|].
      intros Heq.
      assert (Hvin : v ∈ present col).
      { apply count_str_pos. apply count_str_pos in Hv. rewrite Hcnt in Hv.
        destruct (String.eqb_spec v m); [done|lia]. }
      pose proof (Hmax v Hvin). apply Hleast; [done|lia]. }
  destruct (mode (map (fillna (Some m)) col)) as [|m' ms] eqn:Emode.
  { apply mode_nil_iff in Emode. destruct Hl' as [Hin' _].
    rewrite Emode in Hin'. by apply elem_of_nil in Hin'. }
  simpl. f_equal. symmetry. apply (least_mode_unique _ _ _ Hl').
  apply mode_head_least. by rewrite Emode.
Qed.

Lemma mode_fill_keeps_mode_sample :
  exists filled : list Row,
    fill_missing gender_tie = Ok filled /\
    col_mode gender_tie Gender = Some "female" /\
    col_mode filled Gender = Some "female".
Proof.
  eexists. split; [vm_compute; reflexivity|].
  split; [vm_compute; reflexivity|].
  apply (mode_fill_keeps_mode gender_tie); vm_compute; reflexivity.
Defined.

(** ** Bands follow the Average *)

(** X10. The bands follow the order of the averages: a higher value never
    falls into a lower band. *)
Theorem band_monotone (q1 q2 : Q) (b1 b2 : Band) :
  (q1 <= q2)%Q ->
  cut (Some q1) = Some b1 -> cut (Some q2) = Some b2 ->
  band_code b1 <= band_code b2.
Proof.
  intros Hq H1 H2. apply cut_in_band in H1, H2.
  destruct b1, b2; simpl in *; try lia; exfalso; lra.
Qed.

Lemma band_monotone_sample : band_code Fair <= band_code Excellent.
Proof.
  apply (band_monotone 70 (171 # 2) Fair Excellent);
    [vm_compute; discriminate | vm_compute; reflexivity | vm_compute; reflexivity].
Defined.

(** ** The top-20 views: what is left out, and small tables *)

Lemma sorted_prefix_dominates {R : Type} (by_ : R -> option Q) (n : nat) (full : list R) :
  StronglySorted (key_le Qlt_bool false) (map by_ full) ->
  forall r r' : R, r ∈ take n full -> r' ∈ drop n full ->
    key_le Qlt_bool false (by_ r) (by_ r').
Proof.
  intros Hs r r' Hr Hr'.
  rewrite <- (take_drop n full) in Hs. rewrite map_app in Hs.
  eapply (StronglySorted_app_1_elem_of _ _ _ _ _ Hs).
  - apply list_elem_of_fmap. by exists r.
  - apply list_elem_of_fmap. by exists r'.
Qed.

(** X12. What the two top-20 views leave out: the rows that are not shown
    make up the table together with the rows shown, and none of them has a
    key above the key of a row shown, a missing key counting as lowest. *)
Theorem top_views_dominate (loaded : list Row) (d : Dashboard) :
  build loaded = Ok d ->
  (exists rest : list DRow,
     sorted_by_avg_desc d ++ rest ≡ₚ df d /\
     forall r r' : DRow, r ∈ sorted_by_avg_desc d -> r' ∈ rest ->
       key_le Qlt_bool false (Average r) (Average r')) /\
  (exists rest : list DRow,
     sorted_by_math_desc d ++ rest ≡ₚ df d /\
     forall r r' : DRow, r ∈ sorted_by_math_desc d -> r' ∈ rest ->
       key_le Qlt_bool false (num_get Math (d_row r)) (num_get Math (d_row r'))).
Proof.
  intros Hb.
  apply build_inv in Hb as (filled & _ & Hdf & _ & _ & Havg & Hmath & _).
  rewrite Havg, Hmath, Hdf. split.
  - destruct (head_sort_values Average 20 (derive filled)) as (_ & full & Hp & Hs & ->).
    exists (drop 20 full). split; [by rewrite take_drop|].
    by apply sorted_prefix_dominates.
  - destruct (head_sort_values (fun r => num_get Math (d_row r)) 20 (derive filled))
      as (_ & full & Hp & Hs & ->).
    exists (drop 20 full). split; [by rewrite take_drop|].
    by apply (sorted_prefix_dominates (fun r => num_get Math (d_row r))).
Qed.

Lemma omap_length_le {A B : Type} (f : A -> option B) (l : list A) :
  length (omap f l) <= length l.
Proof.
  induction l as [|x l IH]; [done|]. csimpl. destruct (f x); simpl; lia.
Qed.

Lemma top_views_dominate_sample :
  exists d : Dashboard,
    build class_of_22 = Ok d /\
    (exists rest : list DRow,
       sorted_by_avg_desc d ++ rest ≡ₚ df d /\
       forall r r' : DRow, r ∈ sorted_by_avg_desc d -> r' ∈ rest ->
         key_le Qlt_bool false (Average r) (Average r')) /\
    (exists rest : list DRow,
       sorted_by_math_desc d ++ rest ≡ₚ df d /\
       forall r r' : DRow, r ∈ sorted_by_math_desc d -> r' ∈ rest ->
         key_le Qlt_bool false (num_get Math (d_row r)) (num_get Math (d_row r'))).
Proof.
  eexists. split; [vm_compute; reflexivity|].
  apply (top_views_dominate class_of_22). vm_compute. reflexivity.
Defined.

(** ** The group tables *)

Lemma present_elem {A : Type} (s : list (option A)) (x : A) :
  x ∈ present s <-> Some x ∈ s.
Proof.
  unfold present. rewrite list_elem_of_omap. split.
  - intros (o & Ho & E). simpl in E. by subst o.
  - intros H. by exists (Some x).
Qed.

Lemma group_keys_elem (c : CatCol) (df : list DRow) (k : string) :
  k ∈ map fst (group_means c df) <->
  exists r, r ∈ df /\ cat_get c (d_row r) = Some k.
Proof.
  unfold group_means. rewrite map_map. simpl. rewrite map_id.
  rewrite (quicksort_perm String.ltb string_ltb_asym string_le_of_trans).
  rewrite elem_of_remove_dups, present_elem.
  change (map ?f ?l) with (f <$> l). rewrite list_elem_of_fmap.
  split; intros (r & H1 & H2); exists r; by split.
Qed.

(** X14. A group table has one line for each value that its column takes, the
    lines in strictly ascending order of the values, each with the four
    means. *)
Theorem group_means_keys (c : CatCol) (df : list DRow) :
  StronglySorted (le_of String.ltb) (map fst (group_means c df)) /\
  NoDup (map fst (group_means c df)) /\
  (forall k : string, k ∈ map fst (group_means c df) <->
     exists r, r ∈ df /\ cat_get c (d_row r) = Some k) /\
  (forall line, line ∈ group_means c df -> length line.2 = 4%nat).
Proof.
  split; [|split; [|split]].
  - unfold group_means. rewrite map_map. simpl. rewrite map_id.
    apply (quicksort_sorted String.ltb string_ltb_asym string_le_of_trans).
  - unfold group_means. rewrite map_map. simpl. rewrite map_id.
    rewrite (quicksort_perm String.ltb string_ltb_asym string_le_of_trans).
    apply NoDup_remove_dups.
  - apply group_keys_elem.
  - intros line Hl. unfold group_means in Hl.
    apply list_elem_of_fmap in Hl as (k & -> & _). done.
Qed.


Lemma build_fields (loaded : list Row) (d : Dashboard) :
  build loaded = Ok d ->
  exists filled,
    fill_missing loaded = Ok filled /\
    df d = derive filled /\
    missing_counts d = missing_counts_of loaded /\
    by_gender d = group_means Gender (df d) /\
    by_race d = group_means Race_Ethnicity (df d) /\
    by_prep d = group_means Test_Prep (df d) /\
    sorted_by_avg_desc d = head 20 (sort_values Qlt_bool Average false (df d)) /\
    sorted_by_math_desc d
      = head 20 (sort_values Qlt_bool (fun r => num_get Math (d_row r)) false (df d)) /\
    Cleaned_Data d = dataframe_to_rows (df d) /\
    Summary d =
      write_title "Data Quality"
      ++ [[CStr "Duplicate Rows"; CInt (Z.of_nat (duplicate_count d))]; []]
      ++ missing_block (missing_counts d)
      ++ group_block "Average Scores by Gender" "Gender" (by_gender d)
      ++ group_block "Average Scores by Race/Ethnicity" "Race_Ethnicity" (by_race d)
      ++ group_block "Scores by Test Preparation" "Test_Prep" (by_prep d)
      ++ top_block "Top 20 by Average" (sorted_by_avg_desc d)
      ++ top_block "Top 20 by Math" (sorted_by_math_desc d).
Proof.
  intros Hb. apply build_with_inv in Hb
    as (filled & Hfill & Hdf & Hmc & _ & Havg & Hmath & Hg & Hr & Hp & _ & Hws & Hsum).
  exists filled. by repeat (split; [done|]).
Qed.




(** ** The run with its charts *)








(** ** The sheets *)













Lemma remove_dups_length_le {A : Type} `{EqDecision A} (l : list A) :
  length (remove_dups l) <= length l.
Proof.
  induction l as [|x l IH]; [done|]. simpl.
  destruct (decide_rel elem_of x l); simpl; lia.
Qed.

Lemma group_means_length (c : CatCol) (l : list DRow) :
  length (group_means c l) <= length l.
Proof.
  unfold group_means. rewrite length_map.
  rewrite (quicksort_perm String.ltb string_ltb_asym string_le_of_trans).
  etrans; [apply remove_dups_length_le|].
  unfold present. etrans; [apply omap_length_le|]. by rewrite length_map.
Qed.

(** X19. The height of the Summary sheet before the charts: thirty-five rows
    of titles, headers and blank lines, one row for each group of the three
    group tables, and the rows of the two views, twenty each or the whole
    table; and no group table has more lines than the table has rows. *)
Theorem summary_layout (loaded : list Row) (d : Dashboard) :
  build loaded = Ok d ->
  length (Summary d)
  = 35 + length (by_gender d) + length (by_race d) + length (by_prep d)
    + 2 * Nat.min 20 (length loaded) /\
  length (by_gender d) <= length loaded /\
  length (by_race d) <= length loaded /\
  length (by_prep d) <= length loaded.
Proof.
  intros Hb.
  apply build_fields in Hb
    as (filled & Hfill & Hdf & Hmc & Hg & Hr & Hp & Havg & Hmath & _ & Hsum).
  assert (Hlen : length (df d) = length loaded).
  { apply fill_missing_spec in Hfill as [-> _]. by rewrite Hdf, derive_eq, !length_map. }
  split.
  - assert (H1 : length (sorted_by_avg_desc d) = Nat.min 20 (length loaded)).
    { rewrite Havg, <- Hlen. apply head_sort_values. }
    assert (H2 : length (sorted_by_math_desc d) = Nat.min 20 (length loaded)).
    { rewrite Hmath, <- Hlen.
      apply (head_sort_values (fun r => num_get Math (d_row r))). }
    assert (H3 : length (missing_counts d) = 8).
    { rewrite Hmc, (Permutation_length (missing_counts_perm loaded)). done. }
    rewrite Hsum. unfold group_block, top_block, missing_block, write_title.
    rewrite !length_app, !length_map, H1, H2, H3. cbn [length]. lia.
  - rewrite Hg, Hr, Hp, <- Hlen. repeat split; apply group_means_length.
Qed.

Lemma summary_layout_sample :
  exists d : Dashboard,
    build class_of_22 = Ok d /\
    length (Summary d)
    = 35 + length (by_gender d) + length (by_race d) + length (by_prep d)
      + 2 * Nat.min 20 (length class_of_22) /\
    length (by_gender d) <= length class_of_22 /\
    length (by_race d) <= length class_of_22 /\
    length (by_prep d) <= length class_of_22.
Proof.
  eexists. split; [vm_compute; reflexivity|].
  apply (summary_layout class_of_22). vm_compute. reflexivity.
Defined.

(** ** Column names *)

Lemma rename_label_cases (c : string) :
  match dict_get col_map c with
  | Some v => (c, v) ∈ col_map /\ dict_get col_map v = None
  | None => forall v, (c, v) ∉ col_map
  end.
Proof.
  unfold col_map. cbn [dict_get].
  repeat match goal with
  | |- context [String.eqb c ?k] =>
      let E := fresh "E" in
      destruct (String.eqb c k) eqn:E;
        [ apply String.eqb_eq in E; subst c; split;
          [ rewrite !elem_of_cons; tauto | vm_compute; reflexivity ] | ]
  end.
  intros v Hv.
  repeat (apply elem_of_cons in Hv as [[= -> ->]|Hv];
          [ match goal with H : String.eqb ?a ?a = false |- _ =>
              by rewrite String.eqb_refl in H end | ]).
  by apply elem_of_nil in Hv.
Qed.

(** X20. Renaming the columns is idempotent, keeps their number, and leaves a
    label that is no key of [col_map] in place. *)
Theorem rename_idempotent (columns : list string) :
  rename col_map (rename col_map columns) = rename col_map columns /\
  length (rename col_map columns) = length columns /\
  (forall c, c ∈ columns -> (forall v, (c, v) ∉ col_map) -> c ∈ rename col_map columns).
Proof.
  split; [|split].
  - unfold rename. rewrite map_map. apply map_ext. intros c.
    pose proof (rename_label_cases c) as H.
    destruct (dict_get col_map c) as [v|] eqn:E.
    + destruct H as [_ ->]. done.
    + by rewrite E.
  - unfold rename. apply length_map.
  - intros c Hc Hno. unfold rename. apply list_elem_of_fmap. exists c. split; [|done].
    pose proof (rename_label_cases c) as H.
    destruct (dict_get col_map c) as [v|]; [|done].
    destruct H as [H _]. by destruct (Hno v).
Qed.

Lemma rename_label_inv (c v : string) :
  match dict_get col_map c with Some v' => v' | None => c end = v ->
  c = v \/ (c, v) ∈ col_map.
Proof.
  pose proof (rename_label_cases c) as H.
  destruct (dict_get col_map c) as [v'|]; intros <-; [right; tauto|by left].
Qed.

Lemma map_eq_Forall2 {A B C : Type} (f : A -> C) (g : B -> C) (P : A -> B -> Prop)
    (ys : list B) :
  Forall (fun y => forall c, f c = g y <-> P c y) ys ->
  forall xs : list A, map f xs = map g ys <-> Forall2 P xs ys.
Proof.
  induction 1 as [|y ys Hy _ IH]; intros xs.
  - destruct xs as [|x xs]; simpl.
    + split; intros _; [constructor|done].
    + split; intros H; [done|inversion H].
  - destruct xs as [|x xs]; simpl.
    + split; intros H; [done|inversion H].
    + split.
      * intros [= H1 H2]. constructor; [by apply Hy|by apply IH].
      * intros H. inversion H; subst. f_equal; [by apply Hy|by apply IH].
Qed.

Lemma col_map_labels :
  Forall (fun kv : string * string =>
            forall c, match dict_get col_map c with Some v => v | None => c end = kv.2
                      <-> c = kv.1 \/ c = kv.2) col_map.
Proof.
  unfold col_map at 2.
  repeat (apply List.Forall_cons; [intros c; cbn [fst snd]; split|]);
    try apply List.Forall_nil.
  all: try (intros [->| ->]; vm_compute; reflexivity).
  all: intros H; apply rename_label_inv in H as [->|H]; [by right|left].
  all: unfold col_map in H.
  all: repeat (apply elem_of_cons in H as [E|H];
               [injection E; intros; congruence|]).
  all: by apply elem_of_nil in H.
Qed.

(** X21. The table has the eight labels that a [Row] stands for exactly when
    the file names its columns, one by one in the order of [col_map], by the
    name of the file format or by the new name; the categorical columns of
    the script are then the five of the model. *)
Theorem schema_headers (columns : list string) :
  (rename col_map columns = schema <->
   Forall2 (fun c kv => c = kv.1 \/ c = kv.2) columns col_map) /\
  (rename col_map columns = schema ->
   cat_cols_of (rename col_map columns) = map cat_name cat_cols).
Proof.
  split.
  - unfold rename. change schema with (map snd col_map).
    apply (map_eq_Forall2 _ snd (fun c kv => c = kv.1 \/ c = kv.2)).
    apply col_map_labels.
  - intros ->. vm_compute. reflexivity.
Qed.

(** ** The charts of the Summary sheet *)

Lemma set_cell_beyond (ws : list (list cell)) (row : nat) (v : cell) :
  length ws < row ->
  set_cell ws row v = ws ++ replicate (row - 1 - length ws) [] ++ [[v]].
Proof.
  intros H. unfold set_cell.
  replace (row - length ws) with (S (row - 1 - length ws)) by lia.
  rewrite replicate_S_end, app_assoc.
  rewrite alter_app_r_alt by (rewrite length_app, length_replicate; lia).
  replace (row - 1 - length (ws ++ replicate (row - 1 - length ws) [])) with 0.
  2:{ rewrite length_app, length_replicate. lia. }
  simpl. by rewrite <- app_assoc.
Qed.

Lemma max_row_from_bound (ws : list (list cell)) : forall i,
  max_row_from i ws <= i + length ws - 1.
Proof.
  induction ws as [|row ws IH]; intros i; simpl; [lia|].
  specialize (IH (S i)). destruct row; lia.
Qed.

Lemma max_row_from_app (a b : list (list cell)) : forall i,
  max_row_from i (a ++ b) = Nat.max (max_row_from i a) (max_row_from (i + length a) b).
Proof.
  induction a as [|row a IH]; intros i; simpl.
  - by rewrite Nat.add_0_r.
  - rewrite IH. replace (S i + length a) with (i + S (length a)) by lia. lia.
Qed.

Lemma max_row_blank_end (ws : list (list cell)) (c : cell) (row : list cell) :
  max_row (ws ++ [c :: row; []]) = S (length ws).
Proof.
  unfold max_row. rewrite max_row_from_app. simpl.
  pose proof (max_row_from_bound ws 1). lia.
Qed.

Lemma embed_loop_spec (XLImage : string -> bool) (ps : list (string * string)) :
  forall (rc : nat) (ws : list (list cell)) (imgs : list (string * nat))
         (wsf : list (list cell)) (imgsf : list (string * nat)),
  length ws < rc ->
  embed_loop XLImage ps rc ws imgs = (wsf, imgsf) ->
  take (length ws) wsf = ws /\
  take (length imgs) imgsf = imgs /\
  forall (i : nat) (title path : string),
    ps !! i = Some (title, path) ->
    (forall j t p, j < i -> ps !! j = Some (t, p) -> XLImage p = true) ->
    wsf !! (rc - 1 + 21 * i) = Some [CStr title] /\
    (XLImage path = true -> imgsf !! (length imgs + i) = Some (path, rc + 1 + 21 * i)) /\
    (XLImage path = false ->
       length imgsf = length imgs + i /\ length wsf = rc + 21 * i).
Proof.
  induction ps as [|[t p] ps IH]; intros rc ws imgs wsf imgsf Hlen Hrun.
  - simpl in Hrun. injection Hrun as <- <-.
    rewrite !firstn_all. split; [done|]. split; [done|]. intros i title path Hi. done.
  - cbn [embed_loop] in Hrun. rewrite (set_cell_beyond ws rc (CStr t) Hlen) in Hrun.
    set (ws1 := ws ++ replicate (rc - 1 - length ws) [] ++ [[CStr t]]) in *.
    assert (Hl1 : length ws1 = rc).
    { unfold ws1. rewrite !length_app, length_replicate. simpl. lia. }
    assert (Hlast : ws1 !! (rc - 1) = Some [CStr t]).
    { unfold ws1. rewrite app_assoc.
      rewrite lookup_app_r by (rewrite length_app, length_replicate; lia).
      replace (rc - 1 - length (ws ++ replicate (rc - 1 - length ws) [])) with 0; [done|].
      rewrite length_app, length_replicate. lia. }
    destruct (XLImage p) eqn:Ep.
    + destruct (IH (rc + 1 + 20) ws1 (imgs ++ [(p, rc + 1)]) wsf imgsf) as (Hws & Himg & Hat);
        [lia|done|].
      rewrite Hl1 in Hws. rewrite length_app in Himg. simpl in Himg.
      split.
      { replace (length ws) with (Nat.min (length ws) rc) at 1 by lia.
        rewrite <- take_take, Hws. unfold ws1. by rewrite take_app_length. }
      split.
      { replace (length imgs) with (Nat.min (length imgs) (length imgs + 1)) at 1 by lia.
        rewrite <- take_take, Himg. by rewrite take_app_length. }
      intros i title path Hi Hprev. destruct i as [|i].
      * injection Hi as <- <-. split; [|split].
        -- rewrite Nat.mul_0_r, Nat.add_0_r.
           rewrite <- (lookup_take_lt wsf rc) by lia. by rewrite Hws.
        -- intros _. rewrite Nat.mul_0_r, !Nat.add_0_r.
           rewrite <- (lookup_take_lt imgsf (length imgs + 1)) by lia.
           rewrite Himg. by rewrite lookup_app_r, Nat.sub_diag by lia.
        -- intros E. congruence.
      * simpl in Hi.
        destruct (Hat i title path Hi) as (H1 & H2 & H3).
        { intros j t' p' Hj Hp. apply (Hprev (S j) t' p'); [lia|done]. }
        split; [|split].
        -- replace (rc - 1 + 21 * S i) with (rc + 1 + 20 - 1 + 21 * i) by lia. done.
        -- intros E. specialize (H2 E). rewrite length_app in H2. simpl in H2.
           replace (length imgs + S i) with (length imgs + 1 + i) by lia.
           rewrite H2. f_equal. f_equal. lia.
        -- intros E. destruct (H3 E) as [H4 H5]. rewrite length_app in H4. simpl in H4.
           split; lia.
    + injection Hrun as <- <-. split.
      { unfold ws1. by rewrite take_app_length. }
      split; [by rewrite firstn_all|].
      intros i title path Hi Hprev. destruct i as [|i].
      * injection Hi as <- <-. rewrite Nat.mul_0_r, !Nat.add_0_r.
        split; [done|]. split; [congruence|]. intros _. split; [done|lia].
      * specialize (Hprev 0 t p). rewrite Ep in Hprev.
        discriminate Hprev; [lia|done].
Qed.

Lemma rows_end_blank (pre rs : list (list cell)) :
  rs <> [] -> Forall (fun row => row <> []) rs ->
  exists (ws : list (list cell)) (c : cell) (row : list cell),
    pre ++ rs ++ [[]] = ws ++ [c :: row; []].
Proof.
  intros Hne Hall. destruct (exists_last Hne) as (rs' & r & ->).
  apply Forall_app in Hall as [_ Hr]. apply Forall_cons in Hr as [Hr _].
  destruct r as [|c row]; [done|].
  exists (pre ++ rs'), c, row. by rewrite <- !app_assoc.
Qed.

Lemma summary_ends_blank (loaded : list Row) (d : Dashboard) :
  build loaded = Ok d ->
  exists (ws : list (list cell)) (c : cell) (row : list cell),
    Summary d = ws ++ [c :: row; []].
Proof.
  intros Hb. apply build_fields in Hb as (filled & _ & _ & _ & _ & _ & _ & _ & _ & _ & ->).
  unfold top_block at 2. rewrite !app_assoc.
  rewrite <- (app_assoc _ [columns]), <- (app_assoc _ ([columns] ++ _)).
  apply rows_end_blank; [done|].
  apply Forall_cons. split; [done|].
  apply Forall_forall. intros row Hrow.
  apply list_elem_of_fmap in Hrow as (r & -> & _). done.
Qed.

(** X22. The captions of the charts. They go below the rows of the sheet,
    which stay as they are: the caption of chart [i], counted from 0, is the
    only cell of the row 21 * i + 1 below the last row, and the image is
    anchored in the row under it. A caption is written before its image is
    loaded: when the image fails to load, its caption is the last row of the
    sheet, without an image, and the charts after it have neither. *)
Theorem chart_captions (loaded : list Row) (d : Dashboard) :
  build loaded = Ok d ->
  forall (XLImage : string -> bool) (ws : list (list cell))
         (images : list (string * nat)),
    embed_plots XLImage (Summary d) = (ws, images) ->
    take (length (Summary d)) ws = Summary d /\
    forall (i : nat) (title path : string),
      plots !! i = Some (title, path) ->
      (forall j t p, j < i -> plots !! j = Some (t, p) -> XLImage p = true) ->
      ws !! (length (Summary d) + 21 * i) = Some [CStr title] /\
      (XLImage path = true ->
         images !! i = Some (path, length (Summary d) + 2 + 21 * i)) /\
      (XLImage path = false ->
         length images = i /\ length ws = length (Summary d) + 1 + 21 * i).
Proof.
  intros Hb XLImage ws images Hrun. unfold embed_plots in Hrun.
  destruct (summary_ends_blank loaded d Hb) as (pre & c & row & E).
  assert (Hmax : max_row (Summary d) + 2 = length (Summary d) + 1).
  { rewrite E, max_row_blank_end, length_app. simpl. lia. }
  rewrite Hmax in Hrun.
  assert (Hlt : length (Summary d) < length (Summary d) + 1) by lia.
  destruct (embed_loop_spec XLImage plots _ _ _ _ _ Hlt Hrun) as (Hws & _ & Hat).
  split; [done|]. intros i title path Hi Hprev.
  destruct (Hat i title path Hi Hprev) as (H1 & H2 & H3). split; [|split].
  - by replace (length (Summary d) + 1 - 1 + 21 * i)
      with (length (Summary d) + 21 * i) in H1 by lia.
  - intros Ex. specialize (H2 Ex). simpl in H2. rewrite H2. f_equal. f_equal. lia.
  - intros Ex. destruct (H3 Ex) as [H4 H5]. simpl in H4. split; lia.
Qed.

Lemma chart_captions_sample :
  exists d : Dashboard,
    build sample = Ok d /\
    forall (XLImage : string -> bool) (ws : list (list cell))
           (images : list (string * nat)),
      embed_plots XLImage (Summary d) = (ws, images) ->
      take (length (Summary d)) ws = Summary d /\
      forall (i : nat) (title path : string),
        plots !! i = Some (title, path) ->
        (forall j t p, j < i -> plots !! j = Some (t, p) -> XLImage p = true) ->
        ws !! (length (Summary d) + 21 * i) = Some [CStr title] /\
        (XLImage path = true ->
           images !! i = Some (path, length (Summary d) + 2 + 21 * i)) /\
        (XLImage path = false ->
           length images = i /\ length ws = length (Summary d) + 1 + 21 * i).
Proof.
  eexists. split; [vm_compute; reflexivity|].
  apply (chart_captions sample). vm_compute. reflexivity.
Defined.
